(** * The lead query pipeline of [src/hooks/useLeads.ts]

    A shallow embedding of the [useLeads] hook: the filter, the sort and the
    pagination it derives on every render, and the actions it hands to the
    user interface, followed by the properties the specification states
    about them.

    Modelling conventions.
    - A JavaScript string is a [string]: a sequence of 8-bit code units, the
      range U+0000..U+00FF of the UTF-16 code units of the engine.  String
      comparison with [<] is lexicographic on code units, as [String.compare].
    - [score] and [Date.getTime()] are integers ([Z]); the values NaN and
      Invalid Date are outside the model.
    - [currentPage] is an integer ([Z]); [setCurrentPage] accepts any of them.
    - An array is a [list]; [string[]] used as a set ([selectedSources],
      [selectedTags]) stays a list, as in the source.
    - One call of an action followed by the re-render it triggers is one
      transition on [State]. *)

From Stdlib Require Import ZArith List String Ascii Bool Lia.
From Stdlib Require Import Permutation Sorted QArith Qround OrderedTypeEx.
Import ListNotations.

Local Open Scope string_scope.
Local Open Scope list_scope.
Local Open Scope Z_scope.

(** ** The built-ins of the language the hook calls *)

Module JS.

(** [String.prototype.toLowerCase] on one code unit below U+0100:
    A..Z and the Latin-1 capitals U+00C0..U+00DE (the sign U+00D7 apart)
    move up by 32, everything else is kept.  Above U+00FF the function of
    the language also has mappings that depend on the neighbours of a
    letter or change the length of the string; no statement below relies
    on lowercasing going unit by unit. *)
Definition lowerUnit (c : ascii) : ascii :=
  let n := N_of_ascii c in
  if ((65 <=? n) && (n <=? 90) ||
      (192 <=? n) && (n <=? 222) && negb (n =? 215))%N
  then ascii_of_N (n + 32) else c.

Fixpoint toLowerCase (s : string) : string :=
  match s with
  | EmptyString => EmptyString
  | String c s' => String (lowerUnit c) (toLowerCase s')
  end.

(** [s.includes(q)]: [q] occurs in [s] as a run of consecutive code
    units, searched from each position of [s] in turn. *)
Fixpoint includes (s q : string) : bool :=
  String.prefix q s ||
  match s with
  | EmptyString => false
  | String _ s' => includes s' q
  end.

(** A string in a condition: the empty string is falsy. *)
Definition truthy (s : string) : bool :=
  match s with EmptyString => false | String _ _ => true end.

(** [xs.includes(x)] on an array of strings. *)
Definition arrayIncludes (xs : list string) (x : string) : bool :=
  existsb (String.eqb x) xs.

(** [xs.some(p)]. *)
Definition some {A : Type} (p : A -> bool) (xs : list A) : bool :=
  existsb p xs.

(** [xs.slice(start, end)]: a negative index counts from the end of the
    array, both indices are clamped to [0, length], and an empty range
    gives the empty array. *)
Definition slice {A : Type} (xs : list A) (start end_ : Z) : list A :=
  let len := Z.of_nat (List.length xs) in
  let k := if start <? 0 then Z.max (len + start) 0 else Z.min start len in
  let final := if end_ <? 0 then Z.max (len + end_) 0 else Z.min end_ len in
  firstn (Z.to_nat (final - k)) (skipn (Z.to_nat k) xs).

(** [Math.ceil], on the exact quotient.  The hook divides an array length
    by 10: for integers of that size the floating-point quotient is an
    integer exactly when the exact one is, and lies strictly between the
    same two integers otherwise, so its ceiling is the exact ceiling. *)
Definition ceil (q : Q) : Z := Qceiling q.

(** [xs.sort(cmp)].  The language requires the sort to be stable and, for
    a consistent comparator, to return the elements in the order of the
    comparator; it leaves the algorithm open.  The model is the stable
    insertion sort: an element is placed in front of the first element of
    the sorted rest that does not come strictly before it.  The lemma
    [sort_unique] below shows that every algorithm that meets the
    requirement returns this list. *)
Fixpoint insert {A : Type} (cmp : A -> A -> Z) (x : A) (xs : list A)
  : list A :=
  match xs with
  | [] => [x]
  | y :: xs' => if cmp x y <=? 0 then x :: xs else y :: insert cmp x xs'
  end.

Fixpoint sort {A : Type} (cmp : A -> A -> Z) (xs : list A) : list A :=
  match xs with
  | [] => []
  | x :: xs' => insert cmp x (sort cmp xs')
  end.

(** The operators [<] and [>] on the two types the comparator of the hook
    applies them to. *)
Class Ord (V : Type) : Type := {
  lt : V -> V -> bool;
  gt : V -> V -> bool
}.

#[global] Instance Ord_string : Ord string := {
  lt a b := String.ltb a b;
  gt a b := String.ltb b a
}.

#[global] Instance Ord_number : Ord Z := {
  lt a b := Z.ltb a b;
  gt a b := Z.gtb a b
}.

End JS.

(** ** [types/lead.ts] *)

Inductive Source : Type :=
  | web_form | landing_page | sms | email | manual.

Inductive Status : Type :=
  | new | contacted | qualified | booked | paid.

Inductive SortField : Type :=
  | name | createdAt | score.

Inductive SortDirection : Type :=
  | asc | desc.

Inductive ViewMode : Type :=
  | table | card.

(** At run time a source is the string of its name; [selectedSources] is a
    [string[]] and is compared with it. *)
Definition sourceString (s : Source) : string :=
  match s with
  | web_form => "web_form"
  | landing_page => "landing_page"
  | sms => "sms"
  | email => "email"
  | manual => "manual"
  end.

Record Date : Type := mkDate { getTime : Z }.

Module Lead.
Record t : Type := mk {
  id : string;
  name : string;
  email : string;
  phone : string;
  company : string;
  source : Source;
  status : Status;
  score : Z;
  tags : list string;
  createdAt : Date;
  updatedAt : Date;
  notes : option string
}.
End Lead.

(** ** [hooks/useLeads.ts] *)

Definition ITEMS_PER_PAGE : Z := 10.

(** The seven [useState] cells of the hook. *)
Record State : Type := mkState {
  searchQuery : string;
  selectedSources : list string;
  selectedTags : list string;
  sortField : SortField;
  sortDirection : SortDirection;
  viewMode : ViewMode;
  currentPage : Z
}.

(** The initial values passed to [useState]. *)
Definition initialState : State :=
  {| searchQuery := "";
     selectedSources := [];
     selectedTags := [];
     sortField := createdAt;
     sortDirection := desc;
     viewMode := table;
     currentPage := 1 |}.

(** *** Filtering *)

(** The last disjunct of [matchesSearch]: the phone as stored against
    [query], the lowercased search query. *)
Definition phoneMatches (query : string) (lead : Lead.t) : bool :=
  JS.includes (Lead.phone lead) query.

Definition matchesSearch (query : string) (lead : Lead.t) : bool :=
  JS.includes (JS.toLowerCase (Lead.name lead)) query ||
  JS.includes (JS.toLowerCase (Lead.email lead)) query ||
  JS.includes (JS.toLowerCase (Lead.company lead)) query ||
  phoneMatches query lead.

(** The callback of [initialLeads.filter], with its early returns. *)
Definition keepLead (st : State) (lead : Lead.t) : bool :=
  if JS.truthy (searchQuery st) &&
     negb (matchesSearch (JS.toLowerCase (searchQuery st)) lead)
  then false
  else if (0 <? Z.of_nat (List.length (selectedSources st))) &&
          negb (JS.arrayIncludes (selectedSources st)
                  (sourceString (Lead.source lead)))
  then false
  else if 0 <? Z.of_nat (List.length (selectedTags st))
  then
    let hasTag :=
      JS.some (fun tag => JS.arrayIncludes (Lead.tags lead) tag)
        (selectedTags st) in
    if negb hasTag then false else true
  else true.

Definition filteredLeads (initialLeads : list Lead.t) (st : State)
  : list Lead.t :=
  filter (keepLead st) initialLeads.

(** *** Sorting *)

(** The two [if]s and the final [return 0] of the comparator, once [aVal]
    and [bVal] are chosen. *)
Definition compareVals {V : Type} `{JS.Ord V} (dir : SortDirection)
  (aVal bVal : V) : Z :=
  if JS.lt aVal bVal then match dir with asc => -1 | desc => 1 end
  else if JS.gt aVal bVal then match dir with asc => 1 | desc => -1 end
  else 0.

(** The comparator passed to [sorted.sort].  The [default] arm of the
    [switch] is not reachable from a [SortField]. *)
Definition compareLeads (field : SortField) (dir : SortDirection)
  (a b : Lead.t) : Z :=
  match field with
  | name =>
      compareVals dir (JS.toLowerCase (Lead.name a))
                      (JS.toLowerCase (Lead.name b))
  | score => compareVals dir (Lead.score a) (Lead.score b)
  | createdAt =>
      compareVals dir (getTime (Lead.createdAt a))
                      (getTime (Lead.createdAt b))
  end.

Definition sortedLeads (initialLeads : list Lead.t) (st : State)
  : list Lead.t :=
  let sorted := filteredLeads initialLeads st in
  JS.sort (compareLeads (sortField st) (sortDirection st)) sorted.

(** *** Pagination *)

Definition paginatedLeads (initialLeads : list Lead.t) (st : State)
  : list Lead.t :=
  let startIndex := (currentPage st - 1) * ITEMS_PER_PAGE in
  let endIndex := startIndex + ITEMS_PER_PAGE in
  JS.slice (sortedLeads initialLeads st) startIndex endIndex.

Definition totalLeads (initialLeads : list Lead.t) (st : State) : Z :=
  Z.of_nat (List.length (sortedLeads initialLeads st)).

Definition totalPages (initialLeads : list Lead.t) (st : State) : Z :=
  JS.ceil (inject_Z (totalLeads initialLeads st) / inject_Z ITEMS_PER_PAGE)%Q.

(** *** Actions *)

(** The updater shared by [toggleSource] and [toggleTag]: drop every
    occurrence when present, append when absent. *)
Definition toggle (x : string) (prev : list string) : list string :=
  if JS.arrayIncludes prev x
  then filter (fun s => negb (String.eqb s x)) prev
  else prev ++ [x].

Definition with_currentPage (page : Z) (st : State) : State :=
  {| searchQuery := searchQuery st;
     selectedSources := selectedSources st;
     selectedTags := selectedTags st;
     sortField := sortField st;
     sortDirection := sortDirection st;
     viewMode := viewMode st;
     currentPage := page |}.

Definition with_searchQuery (query : string) (st : State) : State :=
  {| searchQuery := query;
     selectedSources := selectedSources st;
     selectedTags := selectedTags st;
     sortField := sortField st;
     sortDirection := sortDirection st;
     viewMode := viewMode st;
     currentPage := currentPage st |}.

Definition with_selectedSources (f : list string -> list string)
  (st : State) : State :=
  {| searchQuery := searchQuery st;
     selectedSources := f (selectedSources st);
     selectedTags := selectedTags st;
     sortField := sortField st;
     sortDirection := sortDirection st;
     viewMode := viewMode st;
     currentPage := currentPage st |}.

Definition with_selectedTags (f : list string -> list string)
  (st : State) : State :=
  {| searchQuery := searchQuery st;
     selectedSources := selectedSources st;
     selectedTags := f (selectedTags st);
     sortField := sortField st;
     sortDirection := sortDirection st;
     viewMode := viewMode st;
     currentPage := currentPage st |}.

Definition with_sortField (field : SortField) (st : State) : State :=
  {| searchQuery := searchQuery st;
     selectedSources := selectedSources st;
     selectedTags := selectedTags st;
     sortField := field;
     sortDirection := sortDirection st;
     viewMode := viewMode st;
     currentPage := currentPage st |}.

Definition with_sortDirection (f : SortDirection -> SortDirection)
  (st : State) : State :=
  {| searchQuery := searchQuery st;
     selectedSources := selectedSources st;
     selectedTags := selectedTags st;
     sortField := sortField st;
     sortDirection := f (sortDirection st);
     viewMode := viewMode st;
     currentPage := currentPage st |}.

Definition with_viewMode (mode : ViewMode) (st : State) : State :=
  {| searchQuery := searchQuery st;
     selectedSources := selectedSources st;
     selectedTags := selectedTags st;
     sortField := sortField st;
     sortDirection := sortDirection st;
     viewMode := mode;
     currentPage := currentPage st |}.

Definition SortField_eqb (a b : SortField) : bool :=
  match a, b with
  | name, name | createdAt, createdAt | score, score => true
  | _, _ => false
  end.

Definition toggleSource (source : string) (st : State) : State :=
  with_currentPage 1 (with_selectedSources (toggle source) st).

Definition toggleTag (tag : string) (st : State) : State :=
  with_currentPage 1 (with_selectedTags (toggle tag) st).

Definition handleSetSearchQuery (query : string) (st : State) : State :=
  with_currentPage 1 (with_searchQuery query st).

(** [handleSetSortField] is a callback that closes over the [sortField] of
    the render that created it ([captured]); its updates are applied to the
    state [st] that is current when it runs. *)
Definition handleSetSortField (captured : SortField) (field : SortField)
  (st : State) : State :=
  if SortField_eqb captured field
  then with_sortDirection
         (fun prev => match prev with asc => desc | desc => asc end) st
  else with_sortDirection (fun _ => desc) (with_sortField field st).

(** The action [setSortField] of a render: the callback of that render,
    which captured the [sortField] of the state it renders. *)
Definition setSortField (field : SortField) (st : State) : State :=
  handleSetSortField (sortField st) field st.

Definition setSortDirection (dir : SortDirection) (st : State) : State :=
  with_sortDirection (fun _ => dir) st.

Definition setViewMode (mode : ViewMode) (st : State) : State :=
  with_viewMode mode st.

Definition setCurrentPage (page : Z) (st : State) : State :=
  with_currentPage page st.

Definition clearFilters (st : State) : State :=
  with_currentPage 1
    (with_selectedTags (fun _ => [])
       (with_selectedSources (fun _ => [])
          (with_searchQuery "" st))).

Definition resetPagination (st : State) : State :=
  with_currentPage 1 st.

(** ** The words of the specification *)

(** [q] is a substring of [s]. *)
Definition Substring (q s : string) : Prop :=
  exists pre post : string, s = (pre ++ q ++ post)%string.



(** The search condition as the hook evaluates it, which is not the wording
    of the specification: the query that is looked for is the lowercased
    one, [query] in the source, in all four fields, the phone being taken as
    stored. *)
Definition passesSearch (st : State) (lead : Lead.t) : Prop :=
  let query := JS.toLowerCase (searchQuery st) in
  searchQuery st = "" \/
  Substring query (JS.toLowerCase (Lead.name lead)) \/
  Substring query (JS.toLowerCase (Lead.email lead)) \/
  Substring query (JS.toLowerCase (Lead.company lead)) \/
  Substring query (Lead.phone lead).

(** The source dimension. *)
Definition passesSource (st : State) (lead : Lead.t) : Prop :=
  selectedSources st = [] \/
  In (sourceString (Lead.source lead)) (selectedSources st).

(** The tag dimension. *)
Definition passesTag (st : State) (lead : Lead.t) : Prop :=
  selectedTags st = [] \/
  exists tag : string, In tag (Lead.tags lead) /\ In tag (selectedTags st).

Definition passesAll (st : State) (lead : Lead.t) : Prop :=
  passesSearch st lead /\ passesSource st lead /\ passesTag st lead.

(** A consistent comparator, in the words of the language standard:
    [cmp a b = 0] is reflexive, symmetric and transitive, and so are
    [cmp a b < 0] and [cmp a b > 0] transitive. *)
Record Consistent {A : Type} (cmp : A -> A -> Z) : Prop := {
  cmp_refl : forall a, cmp a a = 0;
  cmp_sym : forall a b, cmp a b = 0 -> cmp b a = 0;
  cmp_eq_trans : forall a b c, cmp a b = 0 -> cmp b c = 0 -> cmp a c = 0;
  cmp_lt_trans : forall a b c, cmp a b < 0 -> cmp b c < 0 -> cmp a c < 0;
  cmp_gt_trans : forall a b c, cmp a b > 0 -> cmp b c > 0 -> cmp a c > 0
}.

(** [a] and [b] compare equal. *)
Definition tied {A : Type} (cmp : A -> A -> Z) (a b : A) : bool :=
  cmp a b =? 0.

(** [a] may stand in front of [b] in a sorted array. *)
Definition upTo {A : Type} (cmp : A -> A -> Z) (a b : A) : Prop :=
  cmp a b <= 0.

(** What [<] and [>] are expected to be: a strict total order and its
    converse. *)
Class OrdLaws (V : Type) `{JS.Ord V} : Prop := {
  gt_lt : forall a b : V, JS.gt a b = JS.lt b a;
  lt_irrefl : forall a : V, JS.lt a a = false;
  lt_trans : forall a b c : V,
      JS.lt a b = true -> JS.lt b c = true -> JS.lt a c = true;
  lt_connex : forall a b : V,
      JS.lt a b = false -> JS.lt b a = false -> a = b
}.

(** The page numbers 1, 2, ..., [n]. *)
Definition pageNumbers (n : Z) : list Z :=
  map Z.of_nat (seq 1 (Z.to_nat n)).

(** [a] stands somewhere in front of [b] in [xs]. *)
Definition Before {A : Type} (a b : A) (xs : list A) : Prop :=
  exists l1 l2 l3 : list A, xs = l1 ++ a :: l2 ++ b :: l3.

(** asc <-> desc. *)
Definition opposite (dir : SortDirection) : SortDirection :=
  match dir with asc => desc | desc => asc end.

(** ** Sample data: the first leads of [data/mock-leads.ts] *)

Definition day (n : Z) : Date := mkDate (n * 86400000).

Definition sarah : Lead.t :=
  Lead.mk "1" "Sarah Johnson" "sarah.johnson@example.com" "(555) 123-4567"
    "Tech Startup Inc" web_form new 85 ["high-priority"; "enterprise"]
    (day 19737) (day 19740) (Some "Interested in booking a demo").

Definition michael : Lead.t :=
  Lead.mk "2" "Michael Chen" "michael.chen@example.com" "(555) 234-5678"
    "Digital Solutions LLC" landing_page contacted 72 ["smb"; "marketing"]
    (day 19732) (day 19739) None.

Definition emily : Lead.t :=
  Lead.mk "3" "Emily Rodriguez" "emily.r@example.com" "(555) 345-6789"
    "Growth Marketing Co" sms qualified 92
    ["hot-lead"; "enterprise"; "urgent"]
    (day 19734) (day 19740) (Some "Ready to schedule call").

Definition david : Lead.t :=
  Lead.mk "4" "David Kim" "dkim@example.com" "(555) 456-7890"
    "Finance Partners" email new 58 ["finance"; "mid-market"]
    (day 19730) (day 19738) None.

Definition mockLeads : list Lead.t := [sarah; michael; emily; david].

(** A lead whose phone carries an extension in letters, and one more lead
    with the score of [michael]. *)
Definition ann : Lead.t :=
  Lead.mk "21" "Ann Lee" "ann@example.com" "555-0100 ext 12"
    "Acme" manual new 72 [] (day 19741) (day 19741) None.

(** A lead whose phone is stored with capital letters. *)
Definition bea : Lead.t :=
  Lead.mk "22" "Bea Ray" "bea@example.com" "555-0100 EXT 12"
    "Acme" manual new 64 [] (day 19741) (day 19741) None.

(** [n] leads that differ in their identifier and score only. *)
Definition numbered (n : nat) : list Lead.t :=
  map (fun i =>
         Lead.mk (String (ascii_of_nat (65 + i)) "") "Lead" "lead@example.com"
           "555" "Co" manual new (Z.of_nat i) [] (day 19741) (day 19741)
           None)
      (seq 0 n).

(** The first render, re-sorted by [field] in direction [dir]. *)
Definition byField (field : SortField) (dir : SortDirection) : State :=
  setSortDirection dir (with_sortField field initialState).

(** ** [data/mock-leads.ts]: the values offered as filters *)

(** [set.add(x)] on a [Set] kept as the list of its elements in insertion
    order. *)
Definition setAdd (set : list string) (x : string) : list string :=
  if JS.arrayIncludes set x then set else set ++ [x].

(** The comparison of [sort()] without a comparator, on strings: the order
    of the code units. *)
Definition defaultCompare (a b : string) : Z :=
  if String.ltb a b then -1 else if String.ltb b a then 1 else 0.

Definition getUniqueSources (leads : list Lead.t) : list string :=
  let sources :=
    fold_left setAdd (map (fun l => sourceString (Lead.source l)) leads) [] in
  JS.sort defaultCompare sources.

Definition getUniqueTags (leads : list Lead.t) : list string :=
  let tags :=
    fold_left (fun tags l => fold_left setAdd (Lead.tags l) tags) leads [] in
  JS.sort defaultCompare tags.

(** ** [components/leads/pagination-controls.tsx] *)

Definition startItem (currentPage itemsPerPage : Z) : Z :=
  (currentPage - 1) * itemsPerPage + 1.

Definition endItem (currentPage itemsPerPage totalItems : Z) : Z :=
  Z.min (currentPage * itemsPerPage) totalItems.

Definition canGoPrev (currentPage : Z) : bool := currentPage >? 1.

Definition canGoNext (currentPage totalPages : Z) : bool :=
  currentPage <? totalPages.

(** ** [components/leads/lead-list.tsx]: the wiring of the controls *)

(** [PaginationControls] is rendered when [totalPages > 0]. *)
Definition paginationShown (leads : list Lead.t) (st : State) : bool :=
  totalPages leads st >? 0.

(** The Previous and Next buttons call [onPageChange], which is
    [setCurrentPage]; a button that is not rendered or is disabled gets no
    click. *)
Definition clickPrevious (leads : list Lead.t) (st : State) : State :=
  if paginationShown leads st && canGoPrev (currentPage st)
  then setCurrentPage (currentPage st - 1) st
  else st.

Definition clickNext (leads : list Lead.t) (st : State) : State :=
  if paginationShown leads st &&
     canGoNext (currentPage st) (totalPages leads st)
  then setCurrentPage (currentPage st + 1) st
  else st.

(** [onDirectionToggle] of [SortControls]. *)
Definition onDirectionToggle (st : State) : State :=
  setSortDirection
    (match sortDirection st with asc => desc | desc => asc end) st.

(** What the user can do in [LeadList], and the effect that follows a
    change of the filter cells. *)
Inductive Event : Type :=
  | SearchInput (value : string)
  | SourceBadge (source : string)
  | TagBadge (tag : string)
  | ClearAll
  | SortSelect (field : SortField)
  | DirectionButton
  | ViewButton (mode : ViewMode)
  | PreviousButton
  | NextButton
  | FiltersChanged.

Definition handle (leads : list Lead.t) (st : State) (e : Event) : State :=
  match e with
  | SearchInput value => handleSetSearchQuery value st
  | SourceBadge source => toggleSource source st
  | TagBadge tag => toggleTag tag st
  | ClearAll => clearFilters st
  | SortSelect field => setSortField field st
  | DirectionButton => onDirectionToggle st
  | ViewButton mode => setViewMode mode st
  | PreviousButton => clickPrevious leads st
  | NextButton => clickNext leads st
  | FiltersChanged => resetPagination st
  end.

(** The state after a run of events from the first render. *)
Definition run (leads : list Lead.t) (events : list Event) : State :=
  fold_left (handle leads) events initialState.

(** ** [utils/cn.ts] *)

(** The characters of [\s], which are also the ones [trim] removes, below
    U+0100: TAB, LF, VT, FF, CR, SPACE and NO-BREAK SPACE. *)
Definition isSpace (c : ascii) : bool :=
  let n := N_of_ascii c in
  ((9 <=? n) && (n <=? 13) || (n =? 32) || (n =? 160))%N.

(** [s.replace(/\s+/g, ' ')]: every maximal run of white space becomes one
    space; [inRun] says that the character before was white space. *)
Fixpoint collapse (inRun : bool) (s : string) : string :=
  match s with
  | EmptyString => EmptyString
  | String c s' =>
      if isSpace c
      then if inRun then collapse true s' else String " " (collapse true s')
      else String c (collapse false s')
  end.

Fixpoint trimStart (s : string) : string :=
  match s with
  | EmptyString => EmptyString
  | String c s' => if isSpace c then trimStart s' else s
  end.

Fixpoint trimEnd (s : string) : string :=
  match s with
  | EmptyString => EmptyString
  | String c s' =>
      match trimEnd s' with
      | EmptyString => if isSpace c then EmptyString else String c EmptyString
      | t => String c t
      end
  end.

(** [s.trim()]. *)
Definition trim (s : string) : string := trimEnd (trimStart s).

(** An element of an array argument of [cn]. *)
Inductive ClassItem : Type :=
  | ItemString (s : string)
  | ItemUndefined
  | ItemNull
  | ItemFalse.

(** An argument of [cn]; an object is given by its entries in the order of
    [Object.entries]. *)
Inductive ClassValue : Type :=
  | Item (i : ClassItem)
  | Dictionary (entries : list (string * bool))
  | Array (items : list ClassItem).

(** The end of [cn]: [result.join(' ').replace(/\s+/g, ' ').trim()]. *)
Definition joinClasses (result : list string) : string :=
  trim (collapse false (String.concat " " result)).

(** What one element of an array argument pushes on [result]. *)
Definition pushedItem (i : ClassItem) : list string :=
  match i with
  | ItemString s => if JS.truthy s then [s] else []
  | ItemUndefined | ItemNull | ItemFalse => []
  end.

(** [cn(...cls)] for an array argument [cls]. *)
Definition cnItems (items : list ClassItem) : string :=
  joinClasses (flat_map pushedItem items).

(** What one argument pushes on [result]. *)
Definition pushed (cls : ClassValue) : list string :=
  match cls with
  | Item i => pushedItem i
  | Array items =>
      let joined := cnItems items in
      if JS.truthy joined then [joined] else []
  | Dictionary entries =>
      map fst (filter (fun entry => snd entry) entries)
  end.

Definition cn (classes : list ClassValue) : string :=
  joinClasses (flat_map pushed classes).

(** The words of a string: its maximal runs of characters that are not
    white space. *)
Definition startsWithSpace (s : string) : bool :=
  match s with
  | EmptyString => true
  | String c _ => isSpace c
  end.

Fixpoint words (s : string) : list string :=
  match s with
  | EmptyString => []
  | String c s' =>
      if isSpace c then words s'
      else if startsWithSpace s' then String c EmptyString :: words s'
      else match words s' with
           | w :: ws => String c w :: ws
           | [] => [String c EmptyString]
           end
  end.

(** A class token: not empty, no white space in it. *)
Definition Token (w : string) : Prop :=
  w <> "" /\ forall c, In c (list_ascii_of_string w) -> isSpace c = false.

(** The first render, moved to page [p]. *)
Definition onPage (p : Z) : State := setCurrentPage p initialState.

(** ** More words for the properties below *)

(** [a] may stand in front of [b] when sorting by [field] in direction
    [dir]: the keys do not go down (asc), do not go up (desc). *)
Definition inOrder (field : SortField) (dir : SortDirection)
  (a b : Lead.t) : Prop :=
  match field, dir with
  | name, asc =>
      String.leb (JS.toLowerCase (Lead.name a))
                 (JS.toLowerCase (Lead.name b)) = true
  | name, desc =>
      String.leb (JS.toLowerCase (Lead.name b))
                 (JS.toLowerCase (Lead.name a)) = true
  | score, asc => Lead.score a <= Lead.score b
  | score, desc => Lead.score b <= Lead.score a
  | createdAt, asc =>
      getTime (Lead.createdAt a) <= getTime (Lead.createdAt b)
  | createdAt, desc =>
      getTime (Lead.createdAt b) <= getTime (Lead.createdAt a)
  end.

(** The page is the first one, or one of the pages that exist. *)
Definition pageInRange (leads : list Lead.t) (st : State) : Prop :=
  currentPage st = 1 \/ 1 < currentPage st <= totalPages leads st.

(** ** Strings and arrays *)

Section Strings.

Lemma prefix_app (q s : string) :
  String.prefix q s = true <-> exists post, s = (q ++ post)%string.
Proof.
  revert s; induction q as [|c q IH]; intros s; simpl.
  - destruct s; split; eauto.
  - destruct s as [|d s]; simpl.
    + split; [discriminate | intros [post H]; discriminate].
    + destruct (ascii_dec c d) as [->|Hne].
      * rewrite IH; split; intros [post H]; exists post.
        -- now rewrite H.
        -- now inversion H.
      * split; [discriminate | intros [post H]; inversion H; congruence].
Qed.

Lemma includes_Substring (s q : string) :
  JS.includes s q = true <-> Substring q s.
Proof.
  induction s as [|c s IH]; cbn [JS.includes].
  - rewrite orb_false_r, prefix_app; split.
    + intros [post H]; exists "", post; exact H.
    + intros [[|d pre] [post H]]; simpl in H; [eauto | discriminate].
  - rewrite orb_true_iff, prefix_app, IH; split.
    + intros [[post H] | [pre [post H]]].
      * exists "", post; exact H.
      * exists (String c pre), post; simpl; now rewrite H.
    + intros [[|d pre] [post H]]; simpl in H.
      * left; eauto.
      * right; exists pre, post; now inversion H.
Qed.


Lemma truthy_false (s : string) : JS.truthy s = false <-> s = "".
Proof. destruct s; simpl; split; congruence. Qed.

Lemma arrayIncludes_In (xs : list string) (x : string) :
  JS.arrayIncludes xs x = true <-> In x xs.
Proof.
  unfold JS.arrayIncludes; rewrite existsb_exists; split.
  - intros [y [Hy Heq]]; apply String.eqb_eq in Heq; now subst.
  - intros H; exists x; split; [exact H | apply String.eqb_refl].
Qed.

Lemma length_pos_nonempty {A : Type} (xs : list A) :
  (0 <? Z.of_nat (List.length xs)) = false <-> xs = [].
Proof.
  destruct xs as [|x xs]; [now split|].
  split; [|discriminate].
  intros H; apply Z.ltb_ge in H; simpl List.length in H; lia.
Qed.

End Strings.

(** ** Filtering *)

Lemma matchesSearch_spec (query : string) (lead : Lead.t) :
  matchesSearch query lead = true <->
  Substring query (JS.toLowerCase (Lead.name lead)) \/
  Substring query (JS.toLowerCase (Lead.email lead)) \/
  Substring query (JS.toLowerCase (Lead.company lead)) \/
  Substring query (Lead.phone lead).
Proof.
  unfold matchesSearch, phoneMatches.
  rewrite !orb_true_iff, !includes_Substring; tauto.
Qed.

Lemma hasTag_spec (st : State) (lead : Lead.t) :
  JS.some (fun tag => JS.arrayIncludes (Lead.tags lead) tag)
    (selectedTags st) = true <->
  exists tag : string, In tag (Lead.tags lead) /\ In tag (selectedTags st).
Proof.
  unfold JS.some; rewrite existsb_exists; split.
  - intros [tag [Hsel Hin]]; apply arrayIncludes_In in Hin; eauto.
  - intros [tag [Hin Hsel]]; exists tag; split; [exact Hsel|].
    now apply arrayIncludes_In.
Qed.

Lemma keepLead_spec (st : State) (lead : Lead.t) :
  keepLead st lead = true <-> passesAll st lead.
Proof.
  unfold keepLead, passesAll, passesSearch, passesSource, passesTag.
  rewrite <- matchesSearch_spec, <- hasTag_spec, <- arrayIncludes_In.
  rewrite <- truthy_false.
  rewrite <- (length_pos_nonempty (selectedSources st)).
  rewrite <- (length_pos_nonempty (selectedTags st)).
  destruct (JS.truthy (searchQuery st));
    destruct (matchesSearch _ lead);
    destruct (0 <? Z.of_nat (List.length (selectedSources st)));
    destruct (JS.arrayIncludes (selectedSources st) _);
    destruct (0 <? Z.of_nat (List.length (selectedTags st)));
    destruct (JS.some _ (selectedTags st)); simpl;
    intuition congruence.
Qed.



(** ** Sorting *)

Section Filters.

Context {A : Type} (p : A -> bool).

Lemma filter_app_inv (xs u v : list A) :
  filter p xs = u ++ v ->
  exists l1 l2, xs = l1 ++ l2 /\ filter p l1 = u /\ filter p l2 = v.
Proof.
  revert u; induction xs as [|x xs IH]; intros u Hf.
  - symmetry in Hf; apply app_eq_nil in Hf as [-> ->].
    now exists [], [].
  - cbn [filter] in Hf; destruct (p x) eqn:Hx.
    + destruct u as [|y u].
      * exists [], (x :: xs); cbn [filter app]; now rewrite Hx.
      * cbn [app] in Hf; injection Hf as <- Hf.
        destruct (IH u Hf) as (l1 & l2 & -> & <- & <-).
        exists (x :: l1), l2; cbn [filter app]; now rewrite Hx.
    + destruct (IH u Hf) as (l1 & l2 & -> & <- & <-).
      exists (x :: l1), l2; cbn [filter app]; now rewrite Hx.
Qed.

Lemma filter_cons_inv (xs : list A) (a : A) (v : list A) :
  filter p xs = a :: v ->
  exists l1 l2, xs = l1 ++ a :: l2 /\ filter p l2 = v.
Proof.
  induction xs as [|x xs IH]; intros Hf; [discriminate|].
  cbn [filter] in Hf; destruct (p x).
  - injection Hf as -> Hf; now exists [], xs.
  - destruct (IH Hf) as (l1 & l2 & -> & <-).
    now exists (x :: l1), l2.
Qed.

(** What stands in this order among the elements that pass a test stands
    in this order in the whole list. *)
Lemma filter_Before (a b : A) (xs : list A) :
  Before a b (filter p xs) -> Before a b xs.
Proof.
  intros (u & v & w & Hf).
  apply filter_app_inv in Hf as (m1 & m2 & -> & _ & Hf).
  apply filter_cons_inv in Hf as (n1 & n2 & -> & Hf).
  apply filter_app_inv in Hf as (o1 & o2 & -> & _ & Hf).
  apply filter_cons_inv in Hf as (q1 & q2 & -> & _).
  exists (m1 ++ n1), (o1 ++ q1), q2.
  now rewrite <- !app_assoc.
Qed.

End Filters.

Section Sort.

Context {A : Type} (cmp : A -> A -> Z).

Lemma insert_perm (x : A) (xs : list A) :
  Permutation (JS.insert cmp x xs) (x :: xs).
Proof.
  induction xs as [|y xs IH]; simpl.
  - apply Permutation_refl.
  - destruct (cmp x y <=? 0).
    + apply Permutation_refl.
    + rewrite IH; apply perm_swap.
Qed.

Lemma sort_perm (xs : list A) : Permutation (JS.sort cmp xs) xs.
Proof.
  induction xs as [|x xs IH]; simpl.
  - constructor.
  - rewrite insert_perm; now constructor.
Qed.

Hypothesis cmp_ok : Consistent cmp.

Lemma cmp_flip_lt (a b : A) : cmp a b < 0 -> cmp b a > 0.
Proof.
  intros H.
  pose proof (cmp_refl cmp cmp_ok a).
  pose proof (cmp_sym cmp cmp_ok b a).
  pose proof (cmp_lt_trans cmp cmp_ok a b a).
  lia.
Qed.

Lemma cmp_flip_gt (a b : A) : cmp a b > 0 -> cmp b a < 0.
Proof.
  intros H.
  pose proof (cmp_refl cmp cmp_ok a).
  pose proof (cmp_sym cmp cmp_ok b a).
  pose proof (cmp_gt_trans cmp cmp_ok a b a).
  lia.
Qed.

Lemma upTo_total (a b : A) : upTo cmp a b \/ upTo cmp b a.
Proof.
  unfold upTo; pose proof (cmp_flip_gt a b); lia.
Qed.

Lemma upTo_trans (a b c : A) :
  upTo cmp a b -> upTo cmp b c -> upTo cmp a c.
Proof.
  unfold upTo; intros Hab Hbc.
  pose proof (cmp_eq_trans cmp cmp_ok a b c).
  pose proof (cmp_lt_trans cmp cmp_ok a b c).
  pose proof (cmp_sym cmp cmp_ok a b).
  pose proof (cmp_sym cmp cmp_ok b c).
  pose proof (cmp_eq_trans cmp cmp_ok b a c).
  pose proof (cmp_eq_trans cmp cmp_ok a c b).
  pose proof (cmp_sym cmp cmp_ok c b).
  pose proof (cmp_sym cmp cmp_ok b a).
  pose proof (cmp_flip_gt a c).
  pose proof (cmp_lt_trans cmp cmp_ok c a b).
  pose proof (cmp_lt_trans cmp cmp_ok b c a).
  lia.
Qed.

Lemma upTo_both_tied (a b : A) :
  upTo cmp a b -> upTo cmp b a -> cmp a b = 0.
Proof.
  unfold upTo; pose proof (cmp_flip_lt a b); lia.
Qed.

Lemma tied_refl (a : A) : tied cmp a a = true.
Proof. unfold tied; rewrite (cmp_refl cmp cmp_ok); reflexivity. Qed.

Lemma tied_both (z a b : A) :
  tied cmp z a = true -> tied cmp z b = true -> cmp a b = 0.
Proof.
  unfold tied; rewrite !Z.eqb_eq; intros Hza Hzb.
  apply (cmp_eq_trans cmp cmp_ok a z b); [|exact Hzb].
  now apply (cmp_sym cmp cmp_ok).
Qed.

(** Inserting [x] moves it only past elements it is not tied with. *)
Lemma insert_filter_tied (z x : A) (xs : list A) :
  filter (tied cmp z) (JS.insert cmp x xs) = filter (tied cmp z) (x :: xs).
Proof.
  induction xs as [|y xs IH]; [reflexivity|].
  cbn [JS.insert]; destruct (cmp x y <=? 0) eqn:Hxy; [reflexivity|].
  apply Z.leb_gt in Hxy.
  cbn [filter] in *; rewrite IH.
  destruct (tied cmp z y) eqn:Hy, (tied cmp z x) eqn:Hx; try reflexivity.
  pose proof (tied_both z x y Hx Hy); lia.
Qed.

Lemma sort_filter_tied (z : A) (xs : list A) :
  filter (tied cmp z) (JS.sort cmp xs) = filter (tied cmp z) xs.
Proof.
  induction xs as [|x xs IH]; [reflexivity|].
  cbn [JS.sort]; rewrite insert_filter_tied.
  cbn [filter]; now rewrite IH.
Qed.

Lemma insert_sorted (x : A) (xs : list A) :
  Sorted (upTo cmp) xs -> Sorted (upTo cmp) (JS.insert cmp x xs).
Proof.
  induction xs as [|y xs IH]; intros Hs; cbn [JS.insert].
  - repeat constructor.
  - destruct (cmp x y <=? 0) eqn:Hxy.
    + constructor; [exact Hs|]; constructor; now apply Z.leb_le.
    + apply Z.leb_gt in Hxy.
      assert (Hyx : upTo cmp y x)
        by (unfold upTo; pose proof (cmp_flip_gt x y); lia).
      inversion Hs as [|? ? Hs' Hhd]; subst.
      constructor; [now apply IH|].
      destruct xs as [|w xs]; cbn [JS.insert].
      * now constructor.
      * destruct (cmp x w <=? 0); constructor; [exact Hyx|].
        now inversion Hhd.
Qed.

Lemma sort_sorted (xs : list A) : Sorted (upTo cmp) (JS.sort cmp xs).
Proof.
  induction xs as [|x xs IH]; cbn [JS.sort].
  - constructor.
  - now apply insert_sorted.
Qed.

Lemma sorted_strongly (xs : list A) :
  Sorted (upTo cmp) xs -> StronglySorted (upTo cmp) xs.
Proof.
  apply Sorted_StronglySorted; intros a b c; apply upTo_trans.
Qed.

(** Two sorted lists with the same elements, the tied ones in the same
    order, are the same list. *)
Lemma sorted_stable_unique (xs ys : list A) :
  StronglySorted (upTo cmp) xs -> StronglySorted (upTo cmp) ys ->
  (forall z, filter (tied cmp z) xs = filter (tied cmp z) ys) ->
  xs = ys.
Proof.
  revert ys; induction xs as [|a xs IH]; intros ys Hxs Hys Hf.
  - destruct ys as [|b ys]; [reflexivity|].
    specialize (Hf b); cbn [filter] in Hf.
    rewrite tied_refl in Hf; discriminate.
  - destruct ys as [|b ys].
    + specialize (Hf a); cbn [filter] in Hf.
      rewrite tied_refl in Hf; discriminate.
    + inversion Hxs as [|? ? Hxs' Hax]; subst.
      inversion Hys as [|? ? Hys' Hby]; subst.
      assert (Hba : upTo cmp b a).
      { assert (Hin : In a (b :: ys)).
        { apply (filter_In (tied cmp a)); rewrite <- Hf.
          cbn [filter]; rewrite tied_refl; now left. }
        destruct Hin as [->|Hin].
        - unfold upTo; rewrite (cmp_refl cmp cmp_ok); lia.
        - rewrite Forall_forall in Hby; now apply Hby. }
      assert (Hab : upTo cmp a b).
      { assert (Hin : In b (a :: xs)).
        { apply (filter_In (tied cmp b)); rewrite Hf.
          cbn [filter]; rewrite tied_refl; now left. }
        destruct Hin as [->|Hin].
        - unfold upTo; rewrite (cmp_refl cmp cmp_ok); lia.
        - rewrite Forall_forall in Hax; now apply Hax. }
      assert (Heq : a = b).
      { pose proof (Hf a) as Ha; cbn [filter] in Ha.
        rewrite tied_refl in Ha.
        unfold tied at 2 in Ha.
        rewrite (upTo_both_tied a b Hab Hba) in Ha; simpl in Ha.
        now inversion Ha. }
      subst b; f_equal; apply IH; try assumption.
      intros z; specialize (Hf z); cbn [filter] in Hf.
      destruct (tied cmp z a); [now inversion Hf | exact Hf].
Qed.

Lemma sort_keeps_Before (a b : A) (xs : list A) :
  cmp a b = 0 -> Before a b xs -> Before a b (JS.sort cmp xs).
Proof.
  intros Hab (l1 & l2 & l3 & ->).
  apply (filter_Before (tied cmp a)).
  exists (filter (tied cmp a) l1), (filter (tied cmp a) l2),
    (filter (tied cmp a) l3).
  rewrite sort_filter_tied.
  rewrite filter_app; cbn [filter]; rewrite tied_refl.
  rewrite filter_app; cbn [filter].
  unfold tied at 3; rewrite Hab; reflexivity.
Qed.

(** Whatever algorithm the engine runs: a result that is sorted and keeps
    tied elements in their input order is the result of [JS.sort]. *)
Lemma sort_unique (xs out : list A) :
  Sorted (upTo cmp) out ->
  (forall z, filter (tied cmp z) out = filter (tied cmp z) xs) ->
  out = JS.sort cmp xs.
Proof.
  intros Hs Hf; apply sorted_stable_unique.
  - now apply sorted_strongly.
  - apply sorted_strongly, sort_sorted.
  - intros z; now rewrite sort_filter_tied.
Qed.

End Sort.

(** ** The comparator of the hook *)

#[global] Instance OrdLaws_number : OrdLaws Z.
Proof.
  split; unfold JS.lt, JS.gt; simpl.
  - intros a b; apply Z.gtb_ltb.
  - intros a; apply Z.ltb_irrefl.
  - intros a b c; rewrite !Z.ltb_lt; lia.
  - intros a b; rewrite !Z.ltb_ge; lia.
Qed.

Lemma string_ltb_lt (a b : string) :
  String.ltb a b = true <-> String_as_OT.lt a b.
Proof.
  rewrite <- String_as_OT.cmp_lt; unfold String.ltb, String_as_OT.cmp.
  destruct (String.compare a b); split; congruence.
Qed.

#[global] Instance OrdLaws_string : OrdLaws string.
Proof.
  split; unfold JS.lt, JS.gt; simpl.
  - reflexivity.
  - intros a; destruct (String.ltb a a) eqn:H; [|reflexivity].
    apply string_ltb_lt in H.
    apply String_as_OT.lt_not_eq in H; exfalso; apply H; reflexivity.
  - intros a b c; rewrite !string_ltb_lt; apply String_as_OT.lt_trans.
  - intros a b; unfold String.ltb; rewrite (String.compare_antisym b a).
    destruct (String.compare a b) eqn:H; simpl; try discriminate.
    intros _ _; now apply String.compare_eq_iff.
Qed.

Section CompareVals.

Context {V : Type} `{OrdLaws V}.

Lemma compareVals_zero (dir : SortDirection) (a b : V) :
  compareVals dir a b = 0 <-> a = b.
Proof.
  unfold compareVals; rewrite gt_lt; split.
  - destruct (JS.lt a b) eqn:Hab; [destruct dir; discriminate|].
    destruct (JS.lt b a) eqn:Hba; [destruct dir; discriminate|].
    intros _; now apply lt_connex.
  - intros ->; now rewrite lt_irrefl.
Qed.

Lemma compareVals_asc_neg (a b : V) :
  compareVals asc a b < 0 <-> JS.lt a b = true.
Proof.
  unfold compareVals; rewrite gt_lt.
  destruct (JS.lt a b); [|destruct (JS.lt b a)]; split;
    (lia || congruence).
Qed.

Lemma compareVals_asc_pos (a b : V) :
  compareVals asc a b > 0 <-> JS.lt b a = true.
Proof.
  unfold compareVals; rewrite gt_lt.
  destruct (JS.lt a b) eqn:Hab; [|destruct (JS.lt b a)]; split;
    try (lia || congruence).
  intros Hba; pose proof (lt_trans a b a Hab Hba) as Haa.
  rewrite lt_irrefl in Haa; discriminate.
Qed.

(** Descending is ascending with the sign changed. *)
Lemma compareVals_desc (a b : V) :
  compareVals desc a b = - compareVals asc a b.
Proof.
  unfold compareVals; destruct (JS.lt a b), (JS.gt a b); reflexivity.
Qed.

(** A comparator that compares a key of its arguments with [<] and [>]
    is consistent. *)
Lemma compareVals_consistent {A : Type} (key : A -> V)
  (dir : SortDirection) :
  Consistent (fun a b => compareVals dir (key a) (key b)).
Proof.
  split.
  - intros a; now apply compareVals_zero.
  - intros a b; rewrite !compareVals_zero; congruence.
  - intros a b c; rewrite !compareVals_zero; congruence.
  - intros a b c; destruct dir.
    + rewrite !compareVals_asc_neg; apply lt_trans.
    + rewrite !compareVals_desc.
      pose proof (compareVals_asc_pos (key a) (key b)) as Hab.
      pose proof (compareVals_asc_pos (key b) (key c)) as Hbc.
      pose proof (compareVals_asc_pos (key a) (key c)) as Hac.
      intros H1 H2.
      assert (Hca : JS.lt (key c) (key a) = true)
        by (apply (lt_trans _ (key b)); [apply Hbc | apply Hab]; lia).
      apply Hac in Hca; lia.
  - intros a b c; destruct dir.
    + rewrite !compareVals_asc_pos; intros H1 H2.
      now apply (lt_trans _ (key b)).
    + rewrite !compareVals_desc.
      pose proof (compareVals_asc_neg (key a) (key b)) as Hab.
      pose proof (compareVals_asc_neg (key b) (key c)) as Hbc.
      pose proof (compareVals_asc_neg (key a) (key c)) as Hac.
      intros H1 H2.
      assert (Hlt : JS.lt (key a) (key c) = true)
        by (apply (lt_trans _ (key b)); [apply Hab | apply Hbc]; lia).
      apply Hac in Hlt; lia.
Qed.

End CompareVals.

Lemma compareLeads_consistent (field : SortField) (dir : SortDirection) :
  Consistent (compareLeads field dir).
Proof.
  destruct field; unfold compareLeads.
  - apply (compareVals_consistent
             (fun a => JS.toLowerCase (Lead.name a))).
  - apply (compareVals_consistent
             (fun a => getTime (Lead.createdAt a))).
  - apply (compareVals_consistent Lead.score).
Qed.

(** The comparator with field [score] ties two leads exactly when their
    scores are equal, in either direction. *)
Lemma compareLeads_score_tied (dir : SortDirection) (a b : Lead.t) :
  compareLeads score dir a b = 0 <-> Lead.score a = Lead.score b.
Proof. apply compareVals_zero. Qed.

(** [sortedLeads] is in the order of the comparator. *)
Lemma sortedLeads_sorted (initialLeads : list Lead.t) (st : State) :
  StronglySorted (upTo (compareLeads (sortField st) (sortDirection st)))
    (sortedLeads initialLeads st).
Proof.
  apply sorted_strongly; [apply compareLeads_consistent|].
  apply sort_sorted, compareLeads_consistent.
Qed.

(** C3.  The sort is stable.  For every input, every state and every lead
    [x], the leads that the comparator of the state ties with [x] are, in
    [sortedLeads], the same leads in the same order as in [filteredLeads];
    so two leads the comparator considers equal, one in front of the other
    in [filteredLeads], stand in the same order in [sortedLeads].  Under
    field [score] the tied leads are the leads of equal score, in either
    direction. *)
Theorem sortedLeads_stable :
  forall (initialLeads : list Lead.t) (st : State),
    let cmp := compareLeads (sortField st) (sortDirection st) in
    (forall x : Lead.t,
        filter (tied cmp x) (sortedLeads initialLeads st) =
        filter (tied cmp x) (filteredLeads initialLeads st)) /\
    (forall a b : Lead.t,
        cmp a b = 0 ->
        Before a b (filteredLeads initialLeads st) ->
        Before a b (sortedLeads initialLeads st)) /\
    (sortField st = score ->
     forall a b : Lead.t,
        Lead.score a = Lead.score b ->
        Before a b (filteredLeads initialLeads st) ->
        Before a b (sortedLeads initialLeads st)).
Proof.
  intros initialLeads st cmp.
  pose proof (compareLeads_consistent (sortField st) (sortDirection st))
    as Hc.
  split; [|split].
  - intros x; apply sort_filter_tied, Hc.
  - intros a b Hab; apply sort_keeps_Before; assumption.
  - intros Hf a b Hab; apply sort_keeps_Before; [exact Hc|].
    rewrite Hf; now apply compareLeads_score_tied.
Qed.

(** C4.  [sortedLeads] is a permutation of [filteredLeads]: the same leads
    with the same multiplicities, and so the same identifiers with the same
    multiplicities. *)
Theorem sortedLeads_permutation :
  forall (initialLeads : list Lead.t) (st : State),
    Permutation (sortedLeads initialLeads st)
      (filteredLeads initialLeads st) /\
    Permutation (map Lead.id (sortedLeads initialLeads st))
      (map Lead.id (filteredLeads initialLeads st)).
Proof.
  intros initialLeads st.
  assert (Hp : Permutation (sortedLeads initialLeads st)
                 (filteredLeads initialLeads st))
    by apply sort_perm.
  split; [exact Hp | now apply Permutation_map].
Qed.

(** ** Pagination *)

Section Slices.

Context {A : Type}.

(** A slice that starts at a position [s >= 0] and spans [n >= 0]
    positions is the next [n] elements after the first [s]. *)
Lemma slice_firstn_skipn (xs : list A) (s n : Z) :
  0 <= s -> 0 <= n ->
  JS.slice xs s (s + n) = firstn (Z.to_nat n) (skipn (Z.to_nat s) xs).
Proof.
  intros Hs Hn; unfold JS.slice; cbv zeta.
  destruct (Z.ltb_spec s 0) as [?|_]; [lia|].
  destruct (Z.ltb_spec (s + n) 0) as [?|_]; [lia|].
  set (len := Z.of_nat (List.length xs)).
  destruct (Z.le_gt_cases len s) as [Hout|Hin].
  - rewrite (skipn_all2 (n := Z.to_nat s)) by lia.
    rewrite (skipn_all2 (n := Z.to_nat (Z.min s len))) by lia.
    now rewrite !firstn_nil.
  - rewrite (Z.min_l s len) by lia.
    destruct (Z.le_gt_cases (s + n) len) as [Hfit|Hcut].
    + rewrite (Z.min_l (s + n) len) by lia; do 2 f_equal; lia.
    + rewrite (Z.min_r (s + n) len) by lia.
      rewrite !firstn_all2; [reflexivity| |]; rewrite length_skipn; lia.
Qed.

(** A slice that starts at or after the end of the array is empty,
    whatever its end. *)
Lemma slice_beyond (xs : list A) (s e : Z) :
  Z.of_nat (List.length xs) <= s -> JS.slice xs s e = [].
Proof.
  intros Hs; unfold JS.slice; cbv zeta.
  destruct (Z.ltb_spec s 0) as [?|_]; [lia|].
  rewrite (Z.min_r s) by lia.
  rewrite skipn_all2 by lia.
  apply firstn_nil.
Qed.

(** The first [k] chunks of [n] elements, one after the other, are the
    first [k * n] elements. *)
Lemma concat_chunks (xs : list A) (n k : nat) :
  List.concat (map (fun i => firstn n (skipn (i * n) xs)) (seq 0 k)) =
  firstn (k * n) xs.
Proof.
  induction k as [|k IH].
  - reflexivity.
  - rewrite seq_S, map_app, concat_app, IH; simpl.
    rewrite app_nil_r.
    rewrite <- (firstn_skipn (k * n) (firstn (n + k * n) xs)).
    rewrite firstn_firstn, Nat.min_l by lia.
    f_equal.
    rewrite skipn_firstn_comm; f_equal; lia.
Qed.

End Slices.

Lemma ceil_items (n : Z) :
  JS.ceil (inject_Z n / inject_Z ITEMS_PER_PAGE)%Q = - ((- n) / 10).
Proof.
  unfold JS.ceil, Qceiling, Qfloor, Qdiv, Qmult, Qinv, Qopp, inject_Z; simpl.
  now rewrite Z.mul_1_r.
Qed.

(** [totalPages] is the least number of pages of ten that hold all leads. *)
Lemma totalPages_bounds (initialLeads : list Lead.t) (st : State) :
  ITEMS_PER_PAGE * (totalPages initialLeads st - 1)
    < totalLeads initialLeads st
    <= ITEMS_PER_PAGE * totalPages initialLeads st.
Proof.
  unfold totalPages; rewrite ceil_items; unfold ITEMS_PER_PAGE.
  generalize (totalLeads initialLeads st); intros n.
  pose proof (Z.div_mod (- n) 10 ltac:(lia)).
  pose proof (Z.mod_pos_bound (- n) 10 ltac:(lia)).
  lia.
Qed.

(** Filtering and sorting do not read [currentPage]. *)
Lemma sortedLeads_setCurrentPage (initialLeads : list Lead.t) (st : State)
  (page : Z) :
  sortedLeads initialLeads (setCurrentPage page st) =
  sortedLeads initialLeads st.
Proof. reflexivity. Qed.

Lemma paginatedLeads_page (initialLeads : list Lead.t) (st : State)
  (i : nat) :
  paginatedLeads initialLeads (setCurrentPage (Z.of_nat (S i)) st) =
  firstn 10 (skipn (i * 10) (sortedLeads initialLeads st)).
Proof.
  unfold paginatedLeads; rewrite sortedLeads_setCurrentPage.
  cbn [currentPage setCurrentPage with_currentPage]; unfold ITEMS_PER_PAGE.
  rewrite slice_firstn_skipn by lia.
  do 2 f_equal; lia.
Qed.

(** C2.  With [ITEMS_PER_PAGE = 10], [totalPages] is the ceiling of the
    quotient of the number of sorted leads by [ITEMS_PER_PAGE]: the one
    integer [t] with [10 * (t - 1) < length <= 10 * t]; it is 0 exactly when
    [sortedLeads] is empty; and the pages 1, ..., [totalPages], one after the
    other, are [sortedLeads]: nothing is left out and nothing is repeated. *)
Theorem pagination_complete :
  forall (initialLeads : list Lead.t) (st : State),
    ITEMS_PER_PAGE = 10 /\
    (ITEMS_PER_PAGE * (totalPages initialLeads st - 1)
       < Z.of_nat (List.length (sortedLeads initialLeads st))
       <= ITEMS_PER_PAGE * totalPages initialLeads st) /\
    (totalPages initialLeads st = 0 <-> sortedLeads initialLeads st = []) /\
    List.concat
      (map (fun page => paginatedLeads initialLeads (setCurrentPage page st))
         (pageNumbers (totalPages initialLeads st))) =
    sortedLeads initialLeads st.
Proof.
  intros initialLeads st.
  pose proof (totalPages_bounds initialLeads st) as Hb.
  unfold totalLeads, ITEMS_PER_PAGE in Hb.
  split; [reflexivity|]; split; [exact Hb|]; split.
  - split.
    + intros H0; rewrite H0 in Hb.
      destruct (sortedLeads initialLeads st); [reflexivity|].
      simpl List.length in Hb; lia.
    + intros Hnil; rewrite Hnil in Hb; simpl List.length in Hb; lia.
  - unfold pageNumbers.
    rewrite <- seq_shift, !map_map.
    rewrite (map_ext _ (fun i =>
               firstn 10 (skipn (i * 10) (sortedLeads initialLeads st))))
      by (intros i; apply paginatedLeads_page).
    rewrite concat_chunks.
    apply firstn_all2; lia.
Qed.

(** C6.  A page number [p] whose first index [(p - 1) * ITEMS_PER_PAGE] is
    at or beyond the end of [sortedLeads] is accepted by [setCurrentPage] as
    it is: [currentPage] becomes [p], not a clamped value, the other cells
    are kept, and [paginatedLeads] is the empty array.  [setCurrentPage] and
    [paginatedLeads] are total functions: there is no error to raise. *)
Theorem setCurrentPage_out_of_range :
  forall (initialLeads : list Lead.t) (st : State) (p : Z),
    (p - 1) * ITEMS_PER_PAGE
      >= Z.of_nat (List.length (sortedLeads initialLeads st)) ->
    currentPage (setCurrentPage p st) = p /\
    setCurrentPage p st = with_currentPage p st /\
    paginatedLeads initialLeads (setCurrentPage p st) = [].
Proof.
  intros initialLeads st p Hp.
  split; [reflexivity|]; split; [reflexivity|].
  unfold paginatedLeads; rewrite sortedLeads_setCurrentPage.
  apply slice_beyond; cbn [currentPage setCurrentPage with_currentPage]; lia.
Qed.

(** ** The phone in the search *)




(** ** The actions *)

(** C7.  [setSortField f] with [f] the current field keeps the field and
    turns the direction round, so that a second call restores it; with
    another [f] it sets the field to [f] and the direction to [desc]; in
    both cases [currentPage] and every other cell is kept. *)
Theorem setSortField_toggles_or_resets :
  forall (st : State) (f : SortField),
    (f = sortField st ->
     sortField (setSortField f st) = sortField st /\
     sortDirection (setSortField f st) = opposite (sortDirection st) /\
     sortDirection (setSortField f (setSortField f st)) = sortDirection st /\
     setSortField f (setSortField f st) = st) /\
    (f <> sortField st ->
     sortField (setSortField f st) = f /\
     sortDirection (setSortField f st) = desc) /\
    currentPage (setSortField f st) = currentPage st /\
    searchQuery (setSortField f st) = searchQuery st /\
    selectedSources (setSortField f st) = selectedSources st /\
    selectedTags (setSortField f st) = selectedTags st /\
    viewMode (setSortField f st) = viewMode st.
Proof.
  intros [q ss ts fld dir vm pg] f; split; [|split].
  - intros ->; cbn; destruct fld, dir; cbn; auto.
  - cbn; intros Hne; destruct f, fld; cbn; auto; congruence.
  - unfold setSortField, handleSetSortField; cbn.
    destruct (SortField_eqb fld f); cbn; auto.
Qed.

(** Two calls of the callback of one render, before the next render: both
    close over the same [sortField].  On the current field the direction is
    restored all the same, the updater reads the state it is applied to. *)
Lemma handleSetSortField_twice_in_one_render (st : State) :
  handleSetSortField (sortField st) (sortField st)
    (handleSetSortField (sortField st) (sortField st) st) = st.
Proof.
  destruct st as [q ss ts fld dir vm pg]; unfold handleSetSortField; cbn.
  destruct fld, dir; reflexivity.
Qed.

(** C8.  After one call of [setSearchQuery], [toggleSource] or [toggleTag],
    from every state and with every argument, [currentPage] is 1. *)
Theorem filter_actions_reset_page :
  forall (st : State) (q s t : string),
    currentPage (handleSetSearchQuery q st) = 1 /\
    currentPage (toggleSource s st) = 1 /\
    currentPage (toggleTag t st) = 1.
Proof. intros st q s t; repeat split. Qed.

(** What the three filter actions do besides: the query is replaced, and a
    toggle removes a selected value and selects one that was not. *)
Lemma handleSetSearchQuery_query (st : State) (q : string) :
  searchQuery (handleSetSearchQuery q st) = q.
Proof. reflexivity. Qed.

Lemma toggle_In (x y : string) (prev : list string) :
  In y (toggle x prev) <->
  (if JS.arrayIncludes prev x then In y prev /\ y <> x
   else In y prev \/ y = x).
Proof.
  unfold toggle; destruct (JS.arrayIncludes prev x).
  - rewrite filter_In, negb_true_iff, String.eqb_neq; reflexivity.
  - rewrite in_app_iff; simpl; intuition.
Qed.

(** C9.  [clearFilters] empties the search query and the two selections,
    sets [currentPage] to 1 and keeps [sortField], [sortDirection] and
    [viewMode]. *)
Theorem clearFilters_frame :
  forall st : State,
    clearFilters st =
    {| searchQuery := "";
       selectedSources := [];
       selectedTags := [];
       sortField := sortField st;
       sortDirection := sortDirection st;
       viewMode := viewMode st;
       currentPage := 1 |}.
Proof. reflexivity. Qed.

(** C10.  The state of the first render: no search query, no source and no
    tag selected, sorted by [createdAt] descending, on page 1 (and in table
    view); nothing is filtered out of any input. *)
Theorem initial_state_defaults :
  forall initialLeads : list Lead.t,
    searchQuery initialState = "" /\
    selectedSources initialState = [] /\
    selectedTags initialState = [] /\
    sortField initialState = createdAt /\
    sortDirection initialState = desc /\
    currentPage initialState = 1 /\
    viewMode initialState = table /\
    (forall lead : Lead.t, passesAll initialState lead) /\
    filteredLeads initialLeads initialState = initialLeads.
Proof.
  intros initialLeads; repeat (split; [reflexivity|]); split.
  - intros lead; apply keepLead_spec; reflexivity.
  - unfold filteredLeads; induction initialLeads as [|x xs IH];
      [reflexivity|].
    cbn [filter]; change (keepLead initialState x) with true.
    now rewrite IH.
Qed.

(** ** The pipeline on the sample data *)

Example first_render_order :
  map Lead.name (paginatedLeads mockLeads initialState) =
  ["Sarah Johnson"; "Emily Rodriguez"; "Michael Chen"; "David Kim"].
Proof. reflexivity. Qed.

Example sort_by_name_asc :
  map Lead.name (sortedLeads mockLeads (byField name asc)) =
  ["David Kim"; "Emily Rodriguez"; "Michael Chen"; "Sarah Johnson"].
Proof. reflexivity. Qed.

Example sort_by_score_desc :
  map Lead.score (sortedLeads mockLeads (byField score desc)) =
  [92; 85; 72; 58].
Proof. reflexivity. Qed.

(** [michael] and [ann] share the score 72 and keep their order in both
    directions. *)
Example equal_scores_asc :
  sortedLeads [sarah; michael; ann; david] (byField score asc) =
  [david; michael; ann; sarah].
Proof. reflexivity. Qed.

Example equal_scores_desc :
  sortedLeads [sarah; michael; ann; david] (byField score desc) =
  [sarah; michael; ann; david].
Proof. reflexivity. Qed.

Example tag_enterprise :
  filteredLeads mockLeads (toggleTag "enterprise" initialState) =
  [sarah; emily].
Proof. reflexivity. Qed.

Example source_sms_and_tag_enterprise :
  filteredLeads mockLeads
    (toggleSource "sms" (toggleTag "enterprise" initialState)) = [emily].
Proof. reflexivity. Qed.

Example search_sarah :
  filteredLeads mockLeads (handleSetSearchQuery "sarah" initialState) =
  [sarah].
Proof. reflexivity. Qed.

Example search_upper_case :
  filteredLeads mockLeads (handleSetSearchQuery "KIM" initialState) =
  [david].
Proof. reflexivity. Qed.

Example search_phone_digits :
  filteredLeads mockLeads (handleSetSearchQuery "123-4567" initialState) =
  [sarah] /\
  filteredLeads mockLeads (handleSetSearchQuery "555-123" initialState) =
  [].
Proof. split; reflexivity. Qed.

(** A phone stored with capital letters, on which the statements about the
    phone are silent: the hook compares it as stored with the lowercased
    query. *)
Example search_phone_capitals :
  filteredLeads [bea] (handleSetSearchQuery "EXT" initialState) = [] /\
  filteredLeads [bea] (handleSetSearchQuery "ext" initialState) = [] /\
  filteredLeads [bea] (handleSetSearchQuery "BEA" initialState) = [bea].
Proof. repeat split. Qed.

Example search_phone_letters :
  filteredLeads [sarah; ann] (handleSetSearchQuery "EXT" initialState) =
  [ann].
Proof. reflexivity. Qed.

Example twenty_five_leads :
  totalPages (numbered 25) initialState = 3 /\
  List.length
    (paginatedLeads (numbered 25) (setCurrentPage 3 initialState)) = 5%nat /\
  paginatedLeads (numbered 25) (setCurrentPage 4 initialState) = [] /\
  totalPages [] initialState = 0.
Proof. repeat split. Qed.

(** Below page 1 the indices of the slice count from the end. *)
Example page_minus_one :
  map Lead.score
    (paginatedLeads (numbered 25) (setCurrentPage (-1) initialState)) =
  [5; 6; 7; 8; 9; 10; 11; 12; 13; 14].
Proof. reflexivity. Qed.

Example toggle_twice :
  selectedTags (toggleTag "smb" (toggleTag "smb" initialState)) = [] /\
  selectedTags (toggleTag "vip" (toggleTag "smb" initialState)) =
  ["smb"; "vip"].
Proof. split; reflexivity. Qed.

(** ** The theorems with a premise, at the sample data *)

Lemma sortedLeads_stable_witness :
  sortField (byField score asc) = score /\
  Lead.score michael = Lead.score ann /\
  Before michael ann
    (filteredLeads [sarah; michael; ann; david] (byField score asc)) /\
  Before michael ann
    (sortedLeads [sarah; michael; ann; david] (byField score asc)).
Proof.
  assert (Hin : Before michael ann
    (filteredLeads [sarah; michael; ann; david] (byField score asc)))
    by (exists [sarah], [], [david]; reflexivity).
  split; [reflexivity|]; split; [reflexivity|]; split; [exact Hin|].
  destruct (sortedLeads_stable [sarah; michael; ann; david]
              (byField score asc)) as (_ & Hpair & Hscore).
  apply Hscore; [reflexivity | reflexivity | exact Hin].
Defined.



Lemma setCurrentPage_out_of_range_witness :
  (2 - 1) * ITEMS_PER_PAGE
    >= Z.of_nat (List.length (sortedLeads mockLeads initialState)) /\
  currentPage (setCurrentPage 2 initialState) = 2 /\
  paginatedLeads mockLeads (setCurrentPage 2 initialState) = [].
Proof.
  assert (Hp : (2 - 1) * ITEMS_PER_PAGE
            >= Z.of_nat (List.length (sortedLeads mockLeads initialState)))
    by (vm_compute; discriminate).
  split; [exact Hp|].
  destruct (setCurrentPage_out_of_range mockLeads initialState 2 Hp)
    as (Hpage & _ & Hempty).
  split; [exact Hpage | exact Hempty].
Defined.

Lemma setSortField_toggles_or_resets_witness :
  createdAt = sortField initialState /\
  sortDirection (setSortField createdAt initialState) = asc /\
  sortDirection
    (setSortField createdAt (setSortField createdAt initialState)) = desc /\
  name <> sortField (byField score asc) /\
  sortField (setSortField name (byField score asc)) = name /\
  sortDirection (setSortField name (byField score asc)) = desc.
Proof.
  destruct (setSortField_toggles_or_resets initialState createdAt)
    as (Hsame & _ & _).
  destruct (Hsame eq_refl) as (_ & Hflip & Hback & _).
  destruct (setSortField_toggles_or_resets (byField score asc) name)
    as (_ & Hother & _).
  assert (Hne : name <> sortField (byField score asc)) by discriminate.
  destruct (Hother Hne) as (Hfield & Hdir).
  split; [reflexivity|]; split; [exact Hflip|]; split; [exact Hback|].
  split; [exact Hne|]; split; [exact Hfield | exact Hdir].
Defined.

(** * Further properties of the hook and of its callers *)

(** ** The order of [sortedLeads] *)

Lemma StronglySorted_impl {A : Type} (R S : A -> A -> Prop) (xs : list A) :
  (forall a b, R a b -> S a b) ->
  StronglySorted R xs -> StronglySorted S xs.
Proof.
  intros HRS Hs; induction Hs as [|a xs Hs IH Hall]; constructor.
  - exact IH.
  - revert Hall; apply Forall_impl; intros b; apply HRS.
Qed.

Section CompareValsOrder.

Context {V : Type} `{OrdLaws V}.

Lemma compareVals_asc_upTo (a b : V) :
  compareVals asc a b <= 0 <-> JS.lt b a = false.
Proof.
  pose proof (compareVals_asc_pos a b) as Hp.
  destruct (JS.lt b a); split; intros Hle; try reflexivity;
    try discriminate; [|lia].
  assert (compareVals asc a b > 0) by now apply Hp.
  lia.
Qed.

Lemma compareVals_desc_upTo (a b : V) :
  compareVals desc a b <= 0 <-> JS.lt a b = false.
Proof.
  rewrite compareVals_desc.
  pose proof (compareVals_asc_neg a b) as Hn.
  destruct (JS.lt a b); split; intros Hle; try reflexivity;
    try discriminate; [|lia].
  assert (compareVals asc a b < 0) by now apply Hn.
  lia.
Qed.

End CompareValsOrder.

Lemma string_leb_ltb (a b : string) :
  String.leb a b = true <-> String.ltb b a = false.
Proof.
  unfold String.leb, String.ltb; rewrite (String.compare_antisym a b).
  destruct (String.compare b a); simpl; split; congruence.
Qed.

Lemma upTo_inOrder (field : SortField) (dir : SortDirection) (a b : Lead.t) :
  upTo (compareLeads field dir) a b <-> inOrder field dir a b.
Proof.
  unfold upTo, inOrder, compareLeads; destruct field, dir;
    rewrite ?compareVals_asc_upTo, ?compareVals_desc_upTo;
    unfold JS.lt; simpl;
    rewrite ?string_leb_ltb, ?Z.ltb_ge; reflexivity.
Qed.

(** X1.  [sortedLeads] is in the order asked for: every lead stands in
    front of leads whose key (lowercased name, score, creation time) is not
    smaller when the direction is [asc], not greater when it is [desc]. *)
Theorem sortedLeads_in_order :
  forall (initialLeads : list Lead.t) (st : State),
    StronglySorted (inOrder (sortField st) (sortDirection st))
      (sortedLeads initialLeads st).
Proof.
  intros initialLeads st.
  apply (StronglySorted_impl
           (upTo (compareLeads (sortField st) (sortDirection st)))).
  - intros a b; apply upTo_inOrder.
  - apply sortedLeads_sorted.
Qed.

(** ** What a page holds *)

Lemma slice_middle {A : Type} (xs : list A) (s e : Z) :
  exists pre post : list A, xs = pre ++ JS.slice xs s e ++ post.
Proof.
  assert (Hrun : forall k m : nat,
            xs = firstn k xs ++ firstn m (skipn k xs) ++ skipn m (skipn k xs))
    by (intros k m; now rewrite (firstn_skipn m), (firstn_skipn k)).
  unfold JS.slice; cbv zeta; eexists _, _; apply Hrun.
Qed.

Lemma slice_length_le {A : Type} (xs : list A) (s n : Z) :
  0 <= n -> Z.of_nat (List.length (JS.slice xs s (s + n))) <= n.
Proof.
  intros Hn; unfold JS.slice; cbv zeta.
  rewrite length_firstn, length_skipn.
  destruct (Z.ltb_spec s 0), (Z.ltb_spec (s + n) 0); lia.
Qed.

(** X2.  Whatever the state, also for a page number that is zero, negative
    or past the end: [paginatedLeads] is a run of consecutive elements of
    [sortedLeads], it holds at most [ITEMS_PER_PAGE] leads, and each of them
    is a lead of the input that passes the three filter dimensions. *)
Theorem paginatedLeads_run_of_sorted :
  forall (initialLeads : list Lead.t) (st : State),
    (exists pre post : list Lead.t,
        sortedLeads initialLeads st =
        pre ++ paginatedLeads initialLeads st ++ post) /\
    Z.of_nat (List.length (paginatedLeads initialLeads st))
      <= ITEMS_PER_PAGE /\
    Forall (fun lead => In lead initialLeads /\ passesAll st lead)
      (paginatedLeads initialLeads st).
Proof.
  intros initialLeads st.
  destruct (slice_middle (sortedLeads initialLeads st)
              ((currentPage st - 1) * ITEMS_PER_PAGE)
              ((currentPage st - 1) * ITEMS_PER_PAGE + ITEMS_PER_PAGE))
    as (pre & post & Hrun).
  fold (paginatedLeads initialLeads st) in Hrun.
  split; [now exists pre, post|]; split.
  - apply slice_length_le; unfold ITEMS_PER_PAGE; lia.
  - apply Forall_forall; intros lead Hin.
    assert (Hs : In lead (sortedLeads initialLeads st)).
    { rewrite Hrun, !in_app_iff; auto. }
    apply (Permutation_in _ (sort_perm _ _)) in Hs.
    unfold filteredLeads in Hs; apply filter_In in Hs as [Hl Hk].
    split; [exact Hl | now apply keepLead_spec].
Qed.

Lemma page_length (initialLeads : list Lead.t) (st : State) (p : Z) :
  1 <= p ->
  Z.of_nat (List.length (paginatedLeads initialLeads (setCurrentPage p st)))
  = Z.max 0 (Z.min ITEMS_PER_PAGE
               (totalLeads initialLeads st - (p - 1) * ITEMS_PER_PAGE)).
Proof.
  intros Hp; unfold paginatedLeads; rewrite sortedLeads_setCurrentPage.
  cbn [currentPage setCurrentPage with_currentPage].
  unfold totalLeads, ITEMS_PER_PAGE.
  rewrite slice_firstn_skipn by lia.
  rewrite length_firstn, length_skipn; lia.
Qed.

Lemma page_nonempty_iff (initialLeads : list Lead.t) (st : State) (p : Z) :
  1 <= p ->
  (paginatedLeads initialLeads (setCurrentPage p st) <> [] <->
   p <= totalPages initialLeads st).
Proof.
  intros Hp.
  pose proof (page_length initialLeads st p Hp) as Hlen.
  pose proof (totalPages_bounds initialLeads st) as Hb.
  unfold ITEMS_PER_PAGE in *.
  destruct (paginatedLeads initialLeads (setCurrentPage p st));
    simpl List.length in Hlen; split; intros H; try congruence; try lia.
Qed.

(** X3.  The number of leads on page [p >= 1]: ten on every page before
    [totalPages], the rest (at least one) on page [totalPages], none
    beyond it. *)
Theorem paginatedLeads_count :
  forall (initialLeads : list Lead.t) (st : State) (p : Z),
    1 <= p ->
    Z.of_nat (List.length (paginatedLeads initialLeads (setCurrentPage p st)))
    = Z.max 0 (Z.min ITEMS_PER_PAGE
                 (totalLeads initialLeads st - (p - 1) * ITEMS_PER_PAGE)) /\
    (p < totalPages initialLeads st ->
     List.length (paginatedLeads initialLeads (setCurrentPage p st))
     = 10%nat) /\
    (p = totalPages initialLeads st ->
     1 <= Z.of_nat
            (List.length (paginatedLeads initialLeads (setCurrentPage p st)))
       <= 10) /\
    (totalPages initialLeads st < p ->
     paginatedLeads initialLeads (setCurrentPage p st) = []).
Proof.
  intros initialLeads st p Hp.
  pose proof (totalPages_bounds initialLeads st) as Hb.
  pose proof (page_length initialLeads st p Hp) as Hlen.
  unfold ITEMS_PER_PAGE in *.
  split; [exact Hlen|]; split; [|split].
  - intros Hlt; lia.
  - intros Heq; lia.
  - intros Hgt.
    destruct (paginatedLeads initialLeads (setCurrentPage p st));
      [reflexivity | simpl List.length in Hlen; lia].
Qed.

(** ** Selecting and unselecting sources and tags *)

Lemma toggle_absent (x : string) (prev : list string) :
  ~ In x prev -> toggle x prev = prev ++ [x].
Proof.
  intros Hx; unfold toggle.
  destruct (JS.arrayIncludes prev x) eqn:Hi; [|reflexivity].
  now apply arrayIncludes_In in Hi.
Qed.

Lemma toggle_present (x : string) (prev : list string) :
  In x prev -> toggle x prev = filter (fun s => negb (String.eqb s x)) prev.
Proof.
  intros Hx; unfold toggle.
  apply arrayIncludes_In in Hx; now rewrite Hx.
Qed.

Lemma toggle_In_iff (x y : string) (prev : list string) :
  In y (toggle x prev) <->
  (y = x /\ ~ In x prev) \/ (y <> x /\ In y prev).
Proof.
  destruct (in_dec string_dec x prev) as [Hx|Hx].
  - rewrite (toggle_present x prev Hx), filter_In, negb_true_iff,
      String.eqb_neq.
    tauto.
  - rewrite (toggle_absent x prev Hx), in_app_iff; simpl.
    destruct (string_dec y x) as [->|Hne]; intuition congruence.
Qed.

(** X4.  A toggle flips the membership of its argument and of nothing
    else: after [toggle x], [x] is selected exactly when it was not, and any
    other value is selected exactly when it was.  The values that stay keep
    their order, and a value that comes in comes last. *)
Theorem toggle_flips_membership :
  forall (x y : string) (prev : list string),
    (In y (toggle x prev) <->
     (y = x /\ ~ In x prev) \/ (y <> x /\ In y prev)) /\
    (toggle x prev = filter (fun s => negb (String.eqb s x)) prev \/
     toggle x prev = prev ++ [x]).
Proof.
  intros x y prev; split; [apply toggle_In_iff|].
  unfold toggle; destruct (JS.arrayIncludes prev x); auto.
Qed.

Lemma toggle_twice_In (x y : string) (prev : list string) :
  In y (toggle x (toggle x prev)) <-> In y prev.
Proof.
  rewrite toggle_In_iff.
  rewrite (toggle_In_iff x x prev).
  rewrite (toggle_In_iff x y prev).
  destruct (in_dec string_dec x prev), (string_dec y x); subst; tauto.
Qed.

Lemma nil_iff_In {A : Type} (xs ys : list A) :
  (forall x, In x xs <-> In x ys) -> (xs = [] <-> ys = []).
Proof.
  intros H; destruct xs as [|x xs], ys as [|y ys]; try tauto.
  - exfalso; apply (proj2 (H y)); now left.
  - exfalso; apply (proj1 (H x)); now left.
  - split; discriminate.
Qed.

(** The filter reads the two selections as sets. *)
Lemma keepLead_ext (st st' : State) (lead : Lead.t) :
  searchQuery st = searchQuery st' ->
  (forall x, In x (selectedSources st) <-> In x (selectedSources st')) ->
  (forall x, In x (selectedTags st) <-> In x (selectedTags st')) ->
  keepLead st lead = keepLead st' lead.
Proof.
  intros Hq Hs Ht; apply eq_true_iff_eq; rewrite !keepLead_spec.
  unfold passesAll, passesSearch, passesSource, passesTag.
  rewrite Hq, (nil_iff_In _ _ Hs), (nil_iff_In _ _ Ht), Hs.
  assert (Htag :
    (exists tag, In tag (Lead.tags lead) /\ In tag (selectedTags st)) <->
    (exists tag, In tag (Lead.tags lead) /\ In tag (selectedTags st')))
    by (split; intros [tag [H1 H2]]; exists tag; split; auto;
        now apply Ht).
  rewrite Htag; reflexivity.
Qed.

Lemma filteredLeads_ext (leads : list Lead.t) (st st' : State) :
  searchQuery st = searchQuery st' ->
  (forall x, In x (selectedSources st) <-> In x (selectedSources st')) ->
  (forall x, In x (selectedTags st) <-> In x (selectedTags st')) ->
  filteredLeads leads st = filteredLeads leads st'.
Proof.
  intros Hq Hs Ht; apply filter_ext; intros lead.
  now apply keepLead_ext.
Qed.

(** X5.  Clicking the same source or tag twice brings back the same list
    of leads, in every state; when the value was not selected before, the
    selection itself is restored as it was. *)
Theorem toggle_twice_same_leads :
  forall (initialLeads : list Lead.t) (st : State) (x : string),
    filteredLeads initialLeads (toggleTag x (toggleTag x st)) =
    filteredLeads initialLeads st /\
    filteredLeads initialLeads (toggleSource x (toggleSource x st)) =
    filteredLeads initialLeads st /\
    (~ In x (selectedTags st) ->
     selectedTags (toggleTag x (toggleTag x st)) = selectedTags st) /\
    (~ In x (selectedSources st) ->
     selectedSources (toggleSource x (toggleSource x st))
     = selectedSources st).
Proof.
  intros initialLeads st x.
  assert (Hback : forall prev, ~ In x prev -> toggle x (toggle x prev) = prev).
  { intros prev Hx; rewrite (toggle_absent x prev Hx).
    rewrite toggle_present by (apply in_app_iff; right; now left).
    rewrite filter_app; simpl; rewrite String.eqb_refl; simpl.
    rewrite app_nil_r.
    induction prev as [|y prev IH]; [reflexivity|].
    simpl; destruct (String.eqb_spec y x) as [->|Hne]; simpl.
    - exfalso; apply Hx; now left.
    - f_equal; apply IH; intros Hin; apply Hx; now right. }
  split; [|split; [|split]].
  - apply filteredLeads_ext; try reflexivity; try tauto.
    intros y; apply toggle_twice_In.
  - apply filteredLeads_ext; try reflexivity; try tauto.
    intros y; apply toggle_twice_In.
  - apply Hback.
  - apply Hback.
Qed.

Lemma toggle_NoDup (x : string) (prev : list string) :
  NoDup prev -> NoDup (toggle x prev).
Proof.
  intros Hnd; destruct (in_dec string_dec x prev) as [Hx|Hx].
  - rewrite toggle_present by exact Hx; now apply NoDup_filter.
  - rewrite toggle_absent by exact Hx.
    apply NoDup_app; [exact Hnd | repeat constructor; auto |].
    intros y Hy [<-|[]]; contradiction.
Qed.

(** X6.  However the controls are used, no source and no tag is ever
    selected twice: after every run of events the two selections are free of
    duplicates. *)
Theorem selections_without_duplicates :
  forall (leads : list Lead.t) (events : list Event),
    NoDup (selectedSources (run leads events)) /\
    NoDup (selectedTags (run leads events)).
Proof.
  intros leads events; unfold run.
  assert (Hinit : NoDup (selectedSources initialState) /\
                  NoDup (selectedTags initialState))
    by (split; constructor).
  revert Hinit; generalize initialState.
  induction events as [|e events IH]; intros st Hst; [exact Hst|].
  cbn [fold_left]; apply IH; destruct Hst as [Hs Ht].
  destruct e; cbn; try (split; assumption);
    try (split; [now apply toggle_NoDup | assumption]);
    try (split; [assumption | now apply toggle_NoDup]);
    try (split; constructor).
  - unfold setSortField, handleSetSortField.
    destruct (SortField_eqb (sortField st) field); cbn; split; assumption.
  - unfold clickPrevious.
    destruct (paginationShown leads st && canGoPrev (currentPage st));
      cbn; split; assumption.
  - unfold clickNext.
    destruct (paginationShown leads st &&
              canGoNext (currentPage st) (totalPages leads st));
      cbn; split; assumption.
Qed.

(** ** Clearing, narrowing and widening the filter *)

(** X7.  After [clearFilters], from every state, every lead of the input is
    listed again, in the input order before sorting, and a second
    [clearFilters] changes nothing. *)
Theorem clearFilters_lists_everything :
  forall (initialLeads : list Lead.t) (st : State),
    filteredLeads initialLeads (clearFilters st) = initialLeads /\
    totalLeads initialLeads (clearFilters st)
    = Z.of_nat (List.length initialLeads) /\
    clearFilters (clearFilters st) = clearFilters st.
Proof.
  intros initialLeads st.
  assert (Hall : filteredLeads initialLeads (clearFilters st) = initialLeads).
  { unfold filteredLeads; induction initialLeads as [|x xs IH];
      [reflexivity|].
    cbn [filter]; change (keepLead (clearFilters st) x) with true.
    now rewrite IH. }
  split; [exact Hall|]; split; [|reflexivity].
  unfold totalLeads, sortedLeads.
  rewrite (Permutation_length (sort_perm _ _)), Hall; reflexivity.
Qed.

Lemma toLowerCase_empty (q : string) : JS.toLowerCase q = "" -> q = "".
Proof. destruct q; [reflexivity | discriminate]. Qed.

Lemma string_app_assoc (a b c : string) :
  ((a ++ b) ++ c)%string = (a ++ b ++ c)%string.
Proof.
  induction a as [|x a IH]; simpl; [reflexivity | now rewrite IH].
Qed.

Lemma Substring_trans (a b c : string) :
  Substring a b -> Substring b c -> Substring a c.
Proof.
  intros (p1 & q1 & ->) (p2 & q2 & ->).
  exists (p2 ++ p1)%string, (q1 ++ q2)%string.
  now rewrite !string_app_assoc.
Qed.

Lemma Substring_empty (q : string) : Substring q "" -> q = "".
Proof.
  intros ([|c pre] & post & H); simpl in H; [|discriminate].
  destruct q; [reflexivity | discriminate].
Qed.

Lemma filteredLeads_incl (leads : list Lead.t) (st st' : State) :
  (forall lead, passesAll st lead -> passesAll st' lead) ->
  incl (filteredLeads leads st) (filteredLeads leads st').
Proof.
  intros Himp lead; unfold filteredLeads; rewrite !filter_In.
  rewrite !keepLead_spec; intros [Hin Hp]; auto.
Qed.

Lemma filter_filter_impl {A : Type} (p q : A -> bool) (xs : list A) :
  (forall x, p x = true -> q x = true) ->
  filter p xs = filter p (filter q xs).
Proof.
  intros Himp; induction xs as [|x xs IH]; [reflexivity|].
  cbn [filter]; destruct (p x) eqn:Hp.
  - rewrite (Himp x Hp); cbn [filter]; rewrite Hp; now f_equal.
  - destruct (q x); cbn [filter]; rewrite ?Hp; exact IH.
Qed.

Lemma longer_query_passes (st : State) (q q' : string) (lead : Lead.t) :
  Substring (JS.toLowerCase q) (JS.toLowerCase q') ->
  passesAll (handleSetSearchQuery q' st) lead ->
  passesAll (handleSetSearchQuery q st) lead.
Proof.
  intros Hlow (Hsearch & Hsource & Htag); split; [|split; assumption].
  unfold passesSearch in *; cbn [searchQuery handleSetSearchQuery
    with_currentPage with_searchQuery] in *.
  destruct Hsearch as [He|[Hn|[Hm|[Hc|Hp]]]].
  - left; subst q'; apply toLowerCase_empty.
    now apply Substring_empty.
  - right; left; eapply Substring_trans; eauto.
  - right; right; left; eapply Substring_trans; eauto.
  - right; right; right; left; eapply Substring_trans; eauto.
  - right; right; right; right; eapply Substring_trans; eauto.
Qed.

(** X8.  Typing more never brings leads back: when the lowercased old
    query is a substring of the lowercased new one, the leads found for the
    new query are leads found for the old one, in the same order: they are
    what the new filter keeps of the old result. *)
Theorem longer_query_narrows :
  forall (initialLeads : list Lead.t) (st : State) (q q' : string),
    Substring (JS.toLowerCase q) (JS.toLowerCase q') ->
    incl (filteredLeads initialLeads (handleSetSearchQuery q' st))
         (filteredLeads initialLeads (handleSetSearchQuery q st)) /\
    filteredLeads initialLeads (handleSetSearchQuery q' st) =
    filter (keepLead (handleSetSearchQuery q' st))
      (filteredLeads initialLeads (handleSetSearchQuery q st)).
Proof.
  intros initialLeads st q q' Hsub; split.
  - apply filteredLeads_incl; intros lead.
    now apply longer_query_passes.
  - apply filter_filter_impl; intros lead.
    rewrite !keepLead_spec; now apply longer_query_passes.
Qed.

(** X9.  Selected tags are alternatives, and so are selected sources.
    Selecting the first tag can only remove leads from the list; selecting
    one more tag beside others can only add leads.  The same holds of
    sources. *)
Theorem selecting_narrows_then_widens :
  forall (initialLeads : list Lead.t) (st : State) (x : string),
    (selectedTags st = [] ->
     incl (filteredLeads initialLeads (toggleTag x st))
          (filteredLeads initialLeads st)) /\
    (selectedTags st <> [] -> ~ In x (selectedTags st) ->
     incl (filteredLeads initialLeads st)
          (filteredLeads initialLeads (toggleTag x st))) /\
    (selectedSources st = [] ->
     incl (filteredLeads initialLeads (toggleSource x st))
          (filteredLeads initialLeads st)) /\
    (selectedSources st <> [] -> ~ In x (selectedSources st) ->
     incl (filteredLeads initialLeads st)
          (filteredLeads initialLeads (toggleSource x st))).
Proof.
  intros initialLeads st x; split; [|split; [|split]].
  - intros Hnil; apply filteredLeads_incl.
    intros lead (Hs & Hsrc & _); repeat split; try assumption.
    now left.
  - intros Hne Hx; apply filteredLeads_incl.
    intros lead (Hs & Hsrc & Ht); repeat split; try assumption.
    destruct Ht as [Ht|(tag & Hl & Hsel)]; [contradiction|].
    right; exists tag; split; [exact Hl|].
    cbn; rewrite (toggle_absent x _ Hx), in_app_iff; now left.
  - intros Hnil; apply filteredLeads_incl.
    intros lead (Hs & _ & Ht); repeat split; try assumption.
    now left.
  - intros Hne Hx; apply filteredLeads_incl.
    intros lead (Hs & Hsrc & Ht); repeat split; try assumption.
    destruct Hsrc as [Hsrc|Hsel]; [contradiction|].
    right; cbn; rewrite (toggle_absent x _ Hx), in_app_iff; now left.
Qed.

(** ** Turning the direction round *)

Section Reverse.

Context {A : Type}.

Lemma StronglySorted_snoc (R : A -> A -> Prop) (xs : list A) (a : A) :
  StronglySorted R xs -> Forall (fun x => R x a) xs ->
  StronglySorted R (xs ++ [a]).
Proof.
  intros Hs Hall; induction Hs as [|x xs Hs IH Hx]; simpl.
  - repeat constructor.
  - inversion Hall as [|? ? Hxa Hall']; subst.
    constructor; [now apply IH|].
    apply Forall_app; split; [exact Hx | now constructor].
Qed.

Lemma StronglySorted_rev (R : A -> A -> Prop) (xs : list A) :
  StronglySorted R xs -> StronglySorted (fun a b => R b a) (rev xs).
Proof.
  intros Hs; induction Hs as [|x xs Hs IH Hx]; simpl.
  - constructor.
  - apply StronglySorted_snoc; [exact IH|].
    apply Forall_rev; exact Hx.
Qed.

Lemma filter_tied_short (cmp : A -> A -> Z) (z : A) (xs : list A) :
  Consistent cmp ->
  ForallOrdPairs (fun a b => cmp a b <> 0) xs ->
  filter (tied cmp z) xs = [] \/ exists a, filter (tied cmp z) xs = [a].
Proof.
  intros Hc Hp; induction Hp as [|a xs Ha Hp IH]; [now left|].
  cbn [filter]; destruct (tied cmp z a) eqn:Hza; [|exact IH].
  right; exists a; f_equal.
  clear IH Hp; induction xs as [|b xs IHxs]; [reflexivity|].
  inversion Ha as [|? ? Hab Ha']; subst.
  cbn [filter]; destruct (tied cmp z b) eqn:Hzb; [|now apply IHxs].
  exfalso; apply Hab; now apply (tied_both cmp Hc z).
Qed.

End Reverse.

Lemma compareLeads_opposite (field : SortField) (dir : SortDirection)
  (a b : Lead.t) :
  compareLeads field (opposite dir) a b = - compareLeads field dir a b.
Proof.
  destruct field, dir; unfold compareLeads, opposite;
    rewrite compareVals_desc; lia.
Qed.

(** X10.  When no two of the filtered leads tie under the sort field, the
    direction button reverses the list: [sortedLeads] after
    [onDirectionToggle] is [sortedLeads] before it, read backwards. *)
Theorem direction_button_reverses :
  forall (initialLeads : list Lead.t) (st : State),
    ForallOrdPairs
      (fun a b => compareLeads (sortField st) (sortDirection st) a b <> 0)
      (filteredLeads initialLeads st) ->
    sortedLeads initialLeads (onDirectionToggle st) =
    rev (sortedLeads initialLeads st).
Proof.
  intros initialLeads st Hnoties.
  pose proof (compareLeads_consistent (sortField st) (sortDirection st))
    as Hc.
  pose proof (compareLeads_consistent (sortField st)
                (opposite (sortDirection st))) as Hc'.
  assert (Hst : sortedLeads initialLeads (onDirectionToggle st) =
                JS.sort (compareLeads (sortField st)
                           (opposite (sortDirection st)))
                  (filteredLeads initialLeads st))
    by (destruct st as [q ss ts f [] vm pg]; reflexivity).
  rewrite Hst; symmetry; apply sort_unique; [exact Hc'| |].
  - apply StronglySorted_Sorted.
    apply (StronglySorted_impl
             (fun a b => upTo (compareLeads (sortField st)
                                 (sortDirection st)) b a)).
    + intros a b; unfold upTo; rewrite compareLeads_opposite.
      intros Hba.
      pose proof (cmp_flip_lt _ Hc b a).
      pose proof (cmp_sym _ Hc b a).
      lia.
    + apply StronglySorted_rev, sortedLeads_sorted.
  - intros z.
    assert (Htie : forall y,
      tied (compareLeads (sortField st) (opposite (sortDirection st))) z y =
      tied (compareLeads (sortField st) (sortDirection st)) z y).
    { intros y; unfold tied; rewrite compareLeads_opposite.
      destruct (Z.eqb_spec (compareLeads (sortField st) (sortDirection st)
                              z y) 0) as [->|Hne]; [reflexivity|].
      apply Z.eqb_neq; lia. }
    rewrite !(filter_ext _ _ Htie), filter_rev.
    unfold sortedLeads; rewrite (sort_filter_tied _ Hc).
    destruct (filter_tied_short _ z _ Hc Hnoties) as [->|[a ->]];
      reflexivity.
Qed.

(** X11.  The direction button and choosing the current field again in the
    field selector do the same thing to the state. *)
Theorem direction_button_is_reselect :
  forall st : State,
    onDirectionToggle st = setSortField (sortField st) st.
Proof.
  intros [q ss ts f d vm pg]; unfold onDirectionToggle, setSortField,
    handleSetSortField; cbn.
  destruct f, d; reflexivity.
Qed.

(** ** The pagination controls *)

Lemma setCurrentPage_same (st : State) : setCurrentPage (currentPage st) st = st.
Proof. destruct st; reflexivity. Qed.

Lemma totalPages_setCurrentPage (leads : list Lead.t) (st : State) (p : Z) :
  totalPages leads (setCurrentPage p st) = totalPages leads st.
Proof. reflexivity. Qed.

Lemma page_zero_empty (leads : list Lead.t) (st : State) :
  paginatedLeads leads (setCurrentPage 0 st) = [].
Proof.
  unfold paginatedLeads; rewrite sortedLeads_setCurrentPage.
  cbn [currentPage setCurrentPage with_currentPage].
  unfold JS.slice, ITEMS_PER_PAGE; cbv zeta.
  change ((0 - 1) * 10 <? 0) with true.
  change ((0 - 1) * 10 + 10 <? 0) with false.
  rewrite Z.min_l by lia.
  replace (Z.to_nat (0 - _)) with 0%nat by lia.
  reflexivity.
Qed.

(** X12.  On a page that exists, the line Showing [startItem] to [endItem]
    of [totalItems] names the leads that are shown: the two positions are
    in order and within the list, their distance is the number of leads on
    the page, and the page is that stretch of [sortedLeads].  On a page past
    the last one [startItem] is greater than [endItem]. *)
Theorem showing_range_matches_page :
  forall (leads : list Lead.t) (st : State),
    (1 <= currentPage st <= totalPages leads st ->
     1 <= startItem (currentPage st) ITEMS_PER_PAGE
       <= endItem (currentPage st) ITEMS_PER_PAGE (totalLeads leads st) /\
     endItem (currentPage st) ITEMS_PER_PAGE (totalLeads leads st)
       <= totalLeads leads st /\
     Z.of_nat (List.length (paginatedLeads leads st))
     = endItem (currentPage st) ITEMS_PER_PAGE (totalLeads leads st)
       - startItem (currentPage st) ITEMS_PER_PAGE + 1 /\
     paginatedLeads leads st
     = firstn
         (Z.to_nat
            (endItem (currentPage st) ITEMS_PER_PAGE (totalLeads leads st)
             - startItem (currentPage st) ITEMS_PER_PAGE + 1))
         (skipn (Z.to_nat (startItem (currentPage st) ITEMS_PER_PAGE - 1))
            (sortedLeads leads st))) /\
    (1 <= currentPage st -> totalPages leads st < currentPage st ->
     endItem (currentPage st) ITEMS_PER_PAGE (totalLeads leads st)
       < startItem (currentPage st) ITEMS_PER_PAGE).
Proof.
  intros leads st.
  pose proof (totalPages_bounds leads st) as Hb.
  unfold startItem, endItem, ITEMS_PER_PAGE in *.
  split.
  - intros Hr.
    pose proof (page_length leads st (currentPage st) ltac:(lia)) as Hlen.
    rewrite setCurrentPage_same in Hlen; unfold ITEMS_PER_PAGE in Hlen.
    split; [lia|]; split; [lia|]; split; [lia|].
    unfold paginatedLeads, ITEMS_PER_PAGE.
    rewrite slice_firstn_skipn by lia.
    replace (Z.to_nat ((currentPage st - 1) * 10 + 1 - 1))
      with (Z.to_nat ((currentPage st - 1) * 10)) by lia.
    unfold totalLeads in *.
    destruct (Z.le_gt_cases (currentPage st * 10)
                (Z.of_nat (List.length (sortedLeads leads st))))
      as [Hfull|Hlast].
    + f_equal; lia.
    + rewrite !firstn_all2; [reflexivity| |]; rewrite length_skipn; lia.
  - intros H1 Hgt; lia.
Qed.

(** X13.  On a page that exists, a button is enabled exactly when the page
    it leads to has leads on it. *)
Theorem buttons_lead_to_leads :
  forall (leads : list Lead.t) (st : State),
    1 <= currentPage st <= totalPages leads st ->
    (canGoNext (currentPage st) (totalPages leads st) = true <->
     paginatedLeads leads (setCurrentPage (currentPage st + 1) st) <> []) /\
    (canGoPrev (currentPage st) = true <->
     paginatedLeads leads (setCurrentPage (currentPage st - 1) st) <> []).
Proof.
  intros leads st Hr; unfold canGoNext, canGoPrev; split.
  - rewrite page_nonempty_iff, Z.ltb_lt by lia; lia.
  - rewrite Z.gtb_ltb, Z.ltb_lt.
    destruct (Z.eq_dec (currentPage st) 1) as [H1|H1].
    + rewrite H1; change (1 - 1) with 0; rewrite page_zero_empty.
      split; [lia | congruence].
    + rewrite page_nonempty_iff by lia; lia.
Qed.

Lemma totalPages_filtered (leads : list Lead.t) (st st' : State) :
  filteredLeads leads st = filteredLeads leads st' ->
  totalPages leads st = totalPages leads st'.
Proof.
  intros Hf; unfold totalPages, totalLeads, sortedLeads.
  now rewrite !(Permutation_length (sort_perm _ _)), Hf.
Qed.

Lemma handle_pageInRange (leads : list Lead.t) (st : State) (e : Event) :
  pageInRange leads st -> pageInRange leads (handle leads st e).
Proof.
  intros Hinv; unfold pageInRange in *.
  destruct e; cbn [handle]; try (left; reflexivity).
  - assert (Hp : currentPage (setSortField field st) = currentPage st /\
                 totalPages leads (setSortField field st)
                 = totalPages leads st).
    { unfold setSortField, handleSetSortField.
      destruct (SortField_eqb (sortField st) field);
        (split; [reflexivity | now apply totalPages_filtered]). }
    destruct Hp as [-> ->]; exact Hinv.
  - replace (totalPages leads (onDirectionToggle st))
      with (totalPages leads st) by now apply totalPages_filtered.
    exact Hinv.
  - replace (totalPages leads (setViewMode mode st))
      with (totalPages leads st) by now apply totalPages_filtered.
    exact Hinv.
  - unfold clickPrevious, paginationShown, canGoPrev.
    destruct (Z.gtb_spec (totalPages leads st) 0);
      destruct (Z.gtb_spec (currentPage st) 1); cbn [andb];
      try exact Hinv.
    rewrite totalPages_setCurrentPage.
    cbn [currentPage setCurrentPage with_currentPage]; lia.
  - unfold clickNext, paginationShown, canGoNext.
    destruct (Z.gtb_spec (totalPages leads st) 0);
      destruct (Z.ltb_spec (currentPage st) (totalPages leads st));
      cbn [andb]; try exact Hinv.
    rewrite totalPages_setCurrentPage.
    cbn [currentPage setCurrentPage with_currentPage]; lia.
Qed.

Lemma run_pageInRange (leads : list Lead.t) (events : list Event) :
  pageInRange leads (run leads events).
Proof.
  unfold run.
  assert (Hinit : pageInRange leads initialState) by (left; reflexivity).
  revert Hinit; generalize initialState.
  induction events as [|e events IH]; intros st Hst; [exact Hst|].
  cbn [fold_left]; apply IH; now apply handle_pageInRange.
Qed.

(** X14.  However the controls of the list are used, the page stays in
    range: it is page 1 or a page that exists; so the user is never on an
    empty page while there are leads that pass the filter. *)
Theorem page_stays_in_range :
  forall (leads : list Lead.t) (events : list Event),
    pageInRange leads (run leads events) /\
    (paginatedLeads leads (run leads events) = [] <->
     sortedLeads leads (run leads events) = []).
Proof.
  intros leads events.
  pose proof (run_pageInRange leads events) as Hinv.
  split; [exact Hinv|].
  set (st := run leads events) in *.
  pose proof (totalPages_bounds leads st) as Hb.
  assert (H1 : 1 <= currentPage st) by (destruct Hinv; lia).
  pose proof (page_nonempty_iff leads st (currentPage st) H1) as Hne.
  rewrite setCurrentPage_same in Hne.
  unfold totalLeads, ITEMS_PER_PAGE in Hb.
  split.
  - intros Hnil.
    assert (Hout : ~ currentPage st <= totalPages leads st)
      by (intros Hle; apply Hne in Hle; contradiction).
    destruct (sortedLeads leads st) as [|x xs]; [reflexivity|].
    simpl List.length in Hb; destruct Hinv; lia.
  - intros Hnil; rewrite Hnil in Hb; simpl List.length in Hb.
    destruct (paginatedLeads leads st) as [|x xs]; [reflexivity|].
    assert (currentPage st <= totalPages leads st)
      by (apply Hne; discriminate).
    lia.
Qed.

(** ** The values offered as filters *)

Lemma setAdd_In (set : list string) (x y : string) :
  In y (setAdd set x) <-> In y set \/ y = x.
Proof.
  unfold setAdd; destruct (JS.arrayIncludes set x) eqn:Hi.
  - apply arrayIncludes_In in Hi; split; [auto|].
    intros [H| ->]; assumption.
  - rewrite in_app_iff; simpl; intuition.
Qed.

Lemma setAdd_NoDup (set : list string) (x : string) :
  NoDup set -> NoDup (setAdd set x).
Proof.
  intros Hnd; unfold setAdd; destruct (JS.arrayIncludes set x) eqn:Hi;
    [exact Hnd|].
  apply NoDup_app; [exact Hnd | repeat constructor; auto |].
  intros y Hy [<-|[]].
  apply arrayIncludes_In in Hy; congruence.
Qed.

Lemma fold_setAdd_In (xs set : list string) (y : string) :
  In y (fold_left setAdd xs set) <-> In y set \/ In y xs.
Proof.
  revert set; induction xs as [|x xs IH]; intros set; simpl.
  - tauto.
  - rewrite IH, setAdd_In; intuition.
Qed.

Lemma fold_setAdd_NoDup (xs set : list string) :
  NoDup set -> NoDup (fold_left setAdd xs set).
Proof.
  revert set; induction xs as [|x xs IH]; intros set Hnd; simpl;
    [exact Hnd|].
  now apply IH, setAdd_NoDup.
Qed.

Lemma fold_tags_In (leads : list Lead.t) (set : list string) (y : string) :
  In y (fold_left (fun tags l => fold_left setAdd (Lead.tags l) tags)
          leads set) <->
  In y set \/ exists lead, In lead leads /\ In y (Lead.tags lead).
Proof.
  revert set; induction leads as [|l leads IH]; intros set; simpl.
  - split; [auto | intros [H|(lead & [] & _)]; exact H].
  - rewrite IH, fold_setAdd_In; split.
    + intros [[H|H]|(lead & Hl & Ht)]; eauto 6.
    + intros [H|(lead & [<-|Hl] & Ht)]; eauto 6.
Qed.

Lemma fold_tags_NoDup (leads : list Lead.t) (set : list string) :
  NoDup set ->
  NoDup (fold_left (fun tags l => fold_left setAdd (Lead.tags l) tags)
           leads set).
Proof.
  revert set; induction leads as [|l leads IH]; intros set Hnd; simpl;
    [exact Hnd|].
  now apply IH, fold_setAdd_NoDup.
Qed.

Lemma defaultCompare_consistent : Consistent defaultCompare.
Proof. exact (compareVals_consistent (fun s : string => s) asc). Qed.

Lemma StronglySorted_NoDup_strict {A : Type} (R : A -> A -> Prop)
  (xs : list A) :
  StronglySorted R xs -> NoDup xs ->
  StronglySorted (fun a b => R a b /\ a <> b) xs.
Proof.
  intros Hs; induction Hs as [|a xs Hs IH Ha]; intros Hnd; constructor;
    inversion Hnd as [|? ? Hnotin Hnd']; subst.
  - now apply IH.
  - apply Forall_forall; intros b Hb; split.
    + rewrite Forall_forall in Ha; now apply Ha.
    + intros ->; contradiction.
Qed.

Lemma sort_default_strict (xs : list string) :
  NoDup xs ->
  StronglySorted (fun a b => String.ltb a b = true)
    (JS.sort defaultCompare xs).
Proof.
  intros Hnd.
  apply (StronglySorted_impl
           (fun a b => upTo defaultCompare a b /\ a <> b)).
  - intros a b [Hle Hne].
    change (compareVals asc a b <= 0) in Hle.
    apply compareVals_asc_upTo in Hle.
    destruct (String.ltb a b) eqn:Hab; [reflexivity|].
    exfalso; apply Hne; now apply (lt_connex a b).
  - apply StronglySorted_NoDup_strict.
    + apply sorted_strongly; [apply defaultCompare_consistent|].
      apply sort_sorted, defaultCompare_consistent.
    + apply (Permutation_NoDup (l := xs)); [|exact Hnd].
      symmetry; apply sort_perm.
Qed.

Lemma getUniqueTags_In (leads : list Lead.t) (t : string) :
  In t (getUniqueTags leads) <->
  exists lead, In lead leads /\ In t (Lead.tags lead).
Proof.
  unfold getUniqueTags; split.
  - intros H; apply (Permutation_in _ (sort_perm _ _)) in H.
    apply fold_tags_In in H as [[]|H]; exact H.
  - intros H; apply (Permutation_in _ (Permutation_sym (sort_perm _ _))).
    apply fold_tags_In; now right.
Qed.

Lemma getUniqueSources_In (leads : list Lead.t) (s : string) :
  In s (getUniqueSources leads) <->
  exists lead, In lead leads /\ sourceString (Lead.source lead) = s.
Proof.
  unfold getUniqueSources; split.
  - intros H; apply (Permutation_in _ (sort_perm _ _)) in H.
    apply fold_setAdd_In in H as [[]|H].
    apply in_map_iff in H as (lead & Hs & Hl); eauto.
  - intros (lead & Hl & Hs).
    apply (Permutation_in _ (Permutation_sym (sort_perm _ _))).
    apply fold_setAdd_In; right; apply in_map_iff; eauto.
Qed.

(** X15.  [getUniqueTags] lists every tag that some lead carries, and no
    other string, each once, in ascending order of code units. *)
Theorem getUniqueTags_sorted_set :
  forall leads : list Lead.t,
    (forall t : string,
        In t (getUniqueTags leads) <->
        exists lead, In lead leads /\ In t (Lead.tags lead)) /\
    NoDup (getUniqueTags leads) /\
    StronglySorted (fun a b => String.ltb a b = true) (getUniqueTags leads).
Proof.
  intros leads; split; [intros t; apply getUniqueTags_In|].
  assert (Hnd : NoDup (fold_left
                  (fun tags l => fold_left setAdd (Lead.tags l) tags)
                  leads []))
    by (apply fold_tags_NoDup; constructor).
  split.
  - apply (Permutation_NoDup (Permutation_sym (sort_perm _ _)) Hnd).
  - now apply sort_default_strict.
Qed.

(** X16.  [getUniqueSources] lists the source of every lead, and no other
    string, each once, in ascending order of code units. *)
Theorem getUniqueSources_sorted_set :
  forall leads : list Lead.t,
    (forall s : string,
        In s (getUniqueSources leads) <->
        exists lead, In lead leads /\ sourceString (Lead.source lead) = s) /\
    NoDup (getUniqueSources leads) /\
    StronglySorted (fun a b => String.ltb a b = true)
      (getUniqueSources leads).
Proof.
  intros leads; split; [intros s; apply getUniqueSources_In|].
  assert (Hnd : NoDup (fold_left setAdd
                  (map (fun l => sourceString (Lead.source l)) leads) []))
    by (apply fold_setAdd_NoDup; constructor).
  split.
  - apply (Permutation_NoDup (Permutation_sym (sort_perm _ _)) Hnd).
  - now apply sort_default_strict.
Qed.

Lemma filter_nonempty {A : Type} (p : A -> bool) (xs : list A) :
  filter p xs <> [] <-> exists x, In x xs /\ p x = true.
Proof.
  split.
  - intros Hne; destruct (filter p xs) as [|x ys] eqn:Hf; [congruence|].
    exists x; apply filter_In; rewrite Hf; now left.
  - intros (x & Hx & Hp) Hnil.
    assert (Hin : In x (filter p xs)) by now apply filter_In.
    rewrite Hnil in Hin; exact Hin.
Qed.

Lemma keepLead_one_tag (t : string) (lead : Lead.t) :
  keepLead (toggleTag t initialState) lead
  = JS.arrayIncludes (Lead.tags lead) t.
Proof.
  unfold keepLead; cbn.
  destruct (JS.arrayIncludes (Lead.tags lead) t); reflexivity.
Qed.

Lemma keepLead_one_source (s : string) (lead : Lead.t) :
  keepLead (toggleSource s initialState) lead
  = String.eqb (sourceString (Lead.source lead)) s.
Proof.
  unfold keepLead; cbn.
  destruct (String.eqb (sourceString (Lead.source lead)) s); reflexivity.
Qed.

(** X17.  On the first render a tag badge, or a source badge, is offered by
    [LeadFilters] exactly when clicking it leaves at least one lead in the
    list; the list then holds the leads that carry the tag, or come from
    the source, in input order. *)
Theorem offered_badges_find_leads :
  forall (leads : list Lead.t) (x : string),
    (In x (getUniqueTags leads) <->
     filteredLeads leads (toggleTag x initialState) <> []) /\
    (In x (getUniqueSources leads) <->
     filteredLeads leads (toggleSource x initialState) <> []) /\
    filteredLeads leads (toggleTag x initialState)
    = filter (fun lead => JS.arrayIncludes (Lead.tags lead) x) leads /\
    filteredLeads leads (toggleSource x initialState)
    = filter (fun lead => String.eqb (sourceString (Lead.source lead)) x)
        leads.
Proof.
  intros leads x.
  assert (Ht : filteredLeads leads (toggleTag x initialState)
               = filter (fun lead => JS.arrayIncludes (Lead.tags lead) x)
                   leads)
    by (apply filter_ext; intros lead; apply keepLead_one_tag).
  assert (Hs : filteredLeads leads (toggleSource x initialState)
               = filter (fun lead =>
                           String.eqb (sourceString (Lead.source lead)) x)
                   leads)
    by (apply filter_ext; intros lead; apply keepLead_one_source).
  split; [|split; [|split; assumption]].
  - rewrite Ht, filter_nonempty, getUniqueTags_In.
    split; intros (lead & Hl & Hx); exists lead; split; auto;
      now apply arrayIncludes_In.
  - rewrite Hs, filter_nonempty, getUniqueSources_In.
    split; intros (lead & Hl & Hx); exists lead; split; auto;
      now apply String.eqb_eq.
Qed.

(** ** The further theorems with a premise, at the sample data *)

Lemma paginatedLeads_count_witness :
  1 <= 3 /\
  3 = totalPages (numbered 25) initialState /\
  1 <= Z.of_nat (List.length (paginatedLeads (numbered 25) (onPage 3)))
    <= 10 /\
  List.length (paginatedLeads (numbered 25) (onPage 2)) = 10%nat /\
  paginatedLeads (numbered 25) (onPage 4) = [].
Proof.
  assert (H3 : 1 <= 3) by lia.
  assert (H2 : 1 <= 2) by lia.
  assert (H4 : 1 <= 4) by lia.
  assert (Ht : 3 = totalPages (numbered 25) initialState) by reflexivity.
  destruct (paginatedLeads_count (numbered 25) initialState 3 H3)
    as (_ & _ & Hlast & _).
  destruct (paginatedLeads_count (numbered 25) initialState 2 H2)
    as (_ & Hfull & _ & _).
  destruct (paginatedLeads_count (numbered 25) initialState 4 H4)
    as (_ & _ & _ & Hnone).
  split; [exact H3|]; split; [exact Ht|]; split; [exact (Hlast Ht)|].
  split; [apply Hfull; reflexivity | apply Hnone; reflexivity].
Defined.

Lemma toggle_twice_same_leads_witness :
  ~ In "smb" (selectedTags initialState) /\
  selectedTags (toggleTag "smb" (toggleTag "smb" initialState))
  = selectedTags initialState /\
  ~ In "sms" (selectedSources initialState) /\
  selectedSources (toggleSource "sms" (toggleSource "sms" initialState))
  = selectedSources initialState.
Proof.
  assert (Hno : forall x : string, ~ In x []) by (intros x []).
  destruct (toggle_twice_same_leads mockLeads initialState "smb")
    as (_ & _ & Htag & _).
  destruct (toggle_twice_same_leads mockLeads initialState "sms")
    as (_ & _ & _ & Hsource).
  split; [apply Hno|]; split; [apply Htag, Hno|].
  split; [apply Hno | apply Hsource, Hno].
Defined.

Lemma longer_query_narrows_witness :
  Substring (JS.toLowerCase "Ar") (JS.toLowerCase "SARAH") /\
  incl (filteredLeads mockLeads (handleSetSearchQuery "SARAH" initialState))
       (filteredLeads mockLeads (handleSetSearchQuery "Ar" initialState)).
Proof.
  assert (Hsub : Substring (JS.toLowerCase "Ar") (JS.toLowerCase "SARAH"))
    by (exists "s", "ah"; reflexivity).
  split; [exact Hsub|].
  exact (proj1 (longer_query_narrows mockLeads initialState "Ar" "SARAH"
                  Hsub)).
Defined.

Lemma selecting_narrows_then_widens_witness :
  selectedTags initialState = [] /\
  incl (filteredLeads mockLeads (toggleTag "smb" initialState))
       (filteredLeads mockLeads initialState) /\
  selectedTags (toggleTag "smb" initialState) <> [] /\
  ~ In "finance" (selectedTags (toggleTag "smb" initialState)) /\
  incl (filteredLeads mockLeads (toggleTag "smb" initialState))
       (filteredLeads mockLeads
          (toggleTag "finance" (toggleTag "smb" initialState))) /\
  selectedSources initialState = [] /\
  incl (filteredLeads mockLeads (toggleSource "sms" initialState))
       (filteredLeads mockLeads initialState) /\
  selectedSources (toggleSource "sms" initialState) <> [] /\
  ~ In "email" (selectedSources (toggleSource "sms" initialState)) /\
  incl (filteredLeads mockLeads (toggleSource "sms" initialState))
       (filteredLeads mockLeads
          (toggleSource "email" (toggleSource "sms" initialState))).
Proof.
  assert (Hne : forall x : string, [x] <> []) by discriminate.
  assert (Hnf : ~ In "finance" ["smb"])
    by (intros [H|[]]; discriminate H).
  assert (Hns : ~ In "email" ["sms"])
    by (intros [H|[]]; discriminate H).
  destruct (selecting_narrows_then_widens mockLeads initialState "smb")
    as (Hfirst & _ & _ & _).
  destruct (selecting_narrows_then_widens mockLeads
              (toggleTag "smb" initialState) "finance")
    as (_ & Hmore & _ & _).
  destruct (selecting_narrows_then_widens mockLeads initialState "sms")
    as (_ & _ & Hfirst' & _).
  destruct (selecting_narrows_then_widens mockLeads
              (toggleSource "sms" initialState) "email")
    as (_ & _ & _ & Hmore').
  split; [reflexivity|]; split; [exact (Hfirst eq_refl)|].
  split; [apply Hne|]; split; [exact Hnf|].
  split; [exact (Hmore (Hne _) Hnf)|].
  split; [reflexivity|]; split; [exact (Hfirst' eq_refl)|].
  split; [apply Hne|]; split; [exact Hns|].
  exact (Hmore' (Hne _) Hns).
Defined.

Lemma direction_button_reverses_witness :
  ForallOrdPairs
    (fun a b =>
       compareLeads (sortField initialState) (sortDirection initialState)
         a b <> 0)
    (filteredLeads mockLeads initialState) /\
  sortedLeads mockLeads (onDirectionToggle initialState) =
  rev (sortedLeads mockLeads initialState).
Proof.
  assert (Hnoties : ForallOrdPairs
    (fun a b =>
       compareLeads (sortField initialState) (sortDirection initialState)
         a b <> 0)
    (filteredLeads mockLeads initialState)).
  { repeat first [ apply FOP_nil | apply FOP_cons
                 | apply Forall_nil | apply Forall_cons ];
      intros Hc; vm_compute in Hc; discriminate Hc. }
  split; [exact Hnoties|].
  exact (direction_button_reverses mockLeads initialState Hnoties).
Defined.

Lemma showing_range_matches_page_witness :
  1 <= currentPage (onPage 3) <= totalPages (numbered 25) (onPage 3) /\
  startItem (currentPage (onPage 3)) ITEMS_PER_PAGE = 21 /\
  endItem (currentPage (onPage 3)) ITEMS_PER_PAGE
    (totalLeads (numbered 25) (onPage 3)) = 25 /\
  Z.of_nat (List.length (paginatedLeads (numbered 25) (onPage 3)))
  = endItem (currentPage (onPage 3)) ITEMS_PER_PAGE
      (totalLeads (numbered 25) (onPage 3))
    - startItem (currentPage (onPage 3)) ITEMS_PER_PAGE + 1 /\
  1 <= currentPage (onPage 4) /\
  totalPages (numbered 25) (onPage 4) < currentPage (onPage 4) /\
  endItem (currentPage (onPage 4)) ITEMS_PER_PAGE
    (totalLeads (numbered 25) (onPage 4))
  < startItem (currentPage (onPage 4)) ITEMS_PER_PAGE.
Proof.
  assert (Hr : 1 <= currentPage (onPage 3)
               <= totalPages (numbered 25) (onPage 3))
    by (split; intros Hc; vm_compute in Hc; discriminate Hc).
  assert (H1 : 1 <= currentPage (onPage 4))
    by (intros Hc; vm_compute in Hc; discriminate Hc).
  assert (Hout : totalPages (numbered 25) (onPage 4)
                 < currentPage (onPage 4)) by reflexivity.
  destruct (showing_range_matches_page (numbered 25) (onPage 3))
    as (Hin & _).
  destruct (Hin Hr) as (_ & _ & Hlen & _).
  destruct (showing_range_matches_page (numbered 25) (onPage 4))
    as (_ & Hpast).
  split; [exact Hr|]; split; [reflexivity|]; split; [reflexivity|].
  split; [exact Hlen|]; split; [exact H1|]; split; [exact Hout|].
  exact (Hpast H1 Hout).
Defined.

Lemma buttons_lead_to_leads_witness :
  1 <= currentPage (onPage 3) <= totalPages (numbered 25) (onPage 3) /\
  canGoNext (currentPage (onPage 3)) (totalPages (numbered 25) (onPage 3))
  = false /\
  paginatedLeads (numbered 25)
    (setCurrentPage (currentPage (onPage 3) - 1) (onPage 3)) <> [].
Proof.
  assert (Hr : 1 <= currentPage (onPage 3)
               <= totalPages (numbered 25) (onPage 3))
    by (split; intros Hc; vm_compute in Hc; discriminate Hc).
  destruct (buttons_lead_to_leads (numbered 25) (onPage 3) Hr)
    as (_ & Hprev).
  split; [exact Hr|]; split; [reflexivity|].
  apply Hprev; reflexivity.
Defined.

(** ** Class names *)

Lemma isSpace_space : isSpace " " = true.
Proof. reflexivity. Qed.

Lemma words_starts (s : string) :
  startsWithSpace s = false -> words s <> [].
Proof.
  destruct s as [|c s]; simpl; [discriminate|].
  intros ->; destruct (startsWithSpace s); [discriminate|].
  destruct (words s); discriminate.
Qed.

Lemma Token_cons (c : ascii) (w : string) :
  isSpace c = false ->
  (w = "" \/ Token w) -> Token (String c w).
Proof.
  intros Hc Hw; split; [discriminate|].
  intros d [<-|Hd]; [exact Hc|].
  destruct Hw as [->|[_ Hw]]; [destruct Hd | now apply Hw].
Qed.

Lemma words_Token (s : string) : Forall Token (words s).
Proof.
  induction s as [|c s IH]; simpl; [constructor|].
  destruct (isSpace c) eqn:Hc; [exact IH|].
  destruct (startsWithSpace s).
  - constructor; [apply Token_cons; auto | exact IH].
  - destruct (words s) as [|w ws].
    + constructor; [apply Token_cons; auto | constructor].
    + inversion IH as [|? ? Hw Hws]; subst.
      constructor; [apply Token_cons; auto | exact Hws].
Qed.

Lemma concat_Token_empty (ws : list string) :
  Forall Token ws -> String.concat " " ws = "" -> ws = [].
Proof.
  intros Hws; destruct Hws as [|w ws [Hw _] Hws]; [reflexivity|].
  destruct w as [|c w]; [contradiction|].
  destruct ws; simpl; discriminate.
Qed.

Lemma concat_cons_char (c : ascii) (w : string) (ws : list string) :
  String.concat " " (String c w :: ws)
  = String c (String.concat " " (w :: ws)).
Proof. destruct ws; reflexivity. Qed.

(** [collapse] and [trimEnd] in terms of the words. *)
Lemma trimEnd_collapse (b : bool) (s : string) :
  trimEnd (collapse b s) =
  ((if b then ""
    else if startsWithSpace s
         then match words s with [] => "" | _ :: _ => " " end
         else "")
   ++ String.concat " " (words s))%string.
Proof.
  revert b; induction s as [|c s IH]; intros b.
  - destruct b; reflexivity.
  - cbn [collapse words startsWithSpace].
    destruct (isSpace c) eqn:Hc.
    + destruct b.
      * rewrite IH; reflexivity.
      * cbn [trimEnd]; rewrite IH, isSpace_space; cbn [append].
        pose proof (words_Token s) as Hw.
        destruct (words s) as [|w ws] eqn:Hws; [reflexivity|].
        destruct (String.concat " " (w :: ws)) eqn:Hcat; [|reflexivity].
        apply concat_Token_empty in Hcat; [discriminate | exact Hw].
    + assert (Hb : (if b then ""
                    else if false
                         then match
                                (if startsWithSpace s
                                 then String c "" :: words s
                                 else match words s with
                                      | [] => [String c ""]
                                      | w :: ws => String c w :: ws
                                      end)
                              with [] => "" | _ :: _ => " " end
                         else "") = "") by (destruct b; reflexivity).
      rewrite Hb; clear Hb; cbn [append].
      cbn [trimEnd]; rewrite IH, Hc.
      destruct (startsWithSpace s) eqn:Hs.
      * destruct (words s) as [|w ws]; [reflexivity|].
        cbn [append]; reflexivity.
      * pose proof (words_starts s Hs) as Hne.
        destruct (words s) as [|w ws]; [contradiction|].
        cbn [append]; rewrite concat_cons_char.
        destruct (String.concat " " (w :: ws)); reflexivity.
Qed.

Lemma collapse_true_false (s : string) :
  trimStart (collapse true s) = trimStart (collapse false s).
Proof.
  destruct s as [|c s]; [reflexivity|].
  cbn [collapse]; destruct (isSpace c); [|reflexivity].
  cbn [trimStart]; now rewrite isSpace_space.
Qed.

Lemma trimStart_collapse (s : string) :
  trimStart (collapse false s) = collapse false (trimStart s).
Proof.
  induction s as [|c s IH]; [reflexivity|].
  cbn [collapse trimStart]; destruct (isSpace c) eqn:Hc.
  - cbn [trimStart]; rewrite isSpace_space, collapse_true_false; exact IH.
  - cbn [trimStart collapse]; now rewrite Hc.
Qed.

Lemma words_trimStart (s : string) : words (trimStart s) = words s.
Proof.
  induction s as [|c s IH]; [reflexivity|].
  cbn [trimStart]; destruct (isSpace c) eqn:Hc; [|reflexivity].
  rewrite IH; cbn [words]; now rewrite Hc.
Qed.

Lemma trimStart_starts (s : string) :
  trimStart s = "" \/ startsWithSpace (trimStart s) = false.
Proof.
  induction s as [|c s IH]; [now left|].
  cbn [trimStart]; destruct (isSpace c) eqn:Hc; [exact IH|].
  right; exact Hc.
Qed.

Lemma trim_collapse_words (s : string) :
  trim (collapse false s) = String.concat " " (words s).
Proof.
  unfold trim; rewrite trimStart_collapse, trimEnd_collapse.
  rewrite words_trimStart.
  destruct (trimStart_starts s) as [He|Hs].
  - rewrite He; cbn [startsWithSpace].
    rewrite <- (words_trimStart s), He; reflexivity.
  - rewrite Hs; reflexivity.
Qed.

Lemma words_app_space (a b : string) :
  words (a ++ " " ++ b) = words a ++ words b.
Proof.
  induction a as [|c a IH]; [reflexivity|].
  cbn [append words]; destruct (isSpace c); [exact IH|].
  assert (Hs : startsWithSpace (a ++ " " ++ b) = startsWithSpace a)
    by (destruct a; reflexivity).
  change (a ++ String " " b)%string with (a ++ " " ++ b)%string.
  rewrite Hs, IH.
  destruct (startsWithSpace a) eqn:Ha; [reflexivity|].
  pose proof (words_starts a Ha) as Hne.
  destruct (words a); [contradiction | reflexivity].
Qed.

Lemma words_concat (xs : list string) :
  words (String.concat " " xs) = flat_map words xs.
Proof.
  induction xs as [|x xs IH]; [reflexivity|].
  destruct xs as [|y xs].
  - simpl; now rewrite app_nil_r.
  - change (String.concat " " (x :: y :: xs))
      with (x ++ " " ++ String.concat " " (y :: xs))%string.
    rewrite words_app_space, IH; reflexivity.
Qed.

Lemma joinClasses_words (result : list string) :
  joinClasses result = String.concat " " (flat_map words result).
Proof.
  unfold joinClasses; now rewrite trim_collapse_words, words_concat.
Qed.

Lemma words_of_Token (w : string) : Token w -> words w = [w].
Proof.
  induction w as [|c w IH]; intros [Hne Hw]; [contradiction|].
  assert (Hc : isSpace c = false) by (apply Hw; now left).
  cbn [words]; rewrite Hc.
  destruct w as [|d w]; [reflexivity|].
  assert (Ht : Token (String d w)).
  { split; [discriminate|]; intros e He; apply Hw; now right. }
  assert (Hd : isSpace d = false) by (apply Hw; right; now left).
  rewrite (IH Ht); cbn [startsWithSpace]; now rewrite Hd.
Qed.

Lemma words_of_Tokens (ws : list string) :
  Forall Token ws -> flat_map words ws = ws.
Proof.
  intros Hws; induction Hws as [|w ws Hw Hws IH]; [reflexivity|].
  cbn [flat_map]; now rewrite (words_of_Token w Hw), IH.
Qed.

Lemma flat_map_words_Token (xs : list string) :
  Forall Token (flat_map words xs).
Proof.
  induction xs as [|x xs IH]; [constructor|].
  cbn [flat_map]; apply Forall_app; split; [apply words_Token | exact IH].
Qed.

Lemma words_joinClasses (result : list string) :
  words (joinClasses result) = flat_map words result.
Proof.
  rewrite joinClasses_words, words_concat.
  apply words_of_Tokens, flat_map_words_Token.
Qed.

(** What a value pushes, seen through [words]. *)
Lemma words_pushedItem_string (s : string) :
  flat_map words (pushedItem (ItemString s)) = words s.
Proof.
  destruct s as [|c s]; [reflexivity|].
  unfold pushedItem; cbn [JS.truthy flat_map]; now rewrite app_nil_r.
Qed.

Lemma words_pushed_Array (items : list ClassItem) :
  flat_map words (pushed (Array items))
  = flat_map words (flat_map pushedItem items).
Proof.
  unfold pushed, cnItems.
  destruct (joinClasses (flat_map pushedItem items)) as [|c j] eqn:Hj.
  - rewrite <- (words_joinClasses (flat_map pushedItem items)), Hj.
    reflexivity.
  - cbn [JS.truthy flat_map]; rewrite app_nil_r, <- Hj.
    apply words_joinClasses.
Qed.

(** X18.  [cn] returns class tokens separated by single spaces: the result
    is the join, with one space, of strings that are not empty and hold no
    white space; so it neither starts nor ends with white space and has no
    two white-space characters in a row. *)
Theorem cn_tokens_single_spaced :
  forall classes : list ClassValue,
    exists tokens : list string,
      Forall Token tokens /\ cn classes = String.concat " " tokens.
Proof.
  intros classes; exists (flat_map words (flat_map pushed classes)).
  split; [apply flat_map_words_Token | apply joinClasses_words].
Qed.

(** X19.  [cn] of its own result is that result: [cn(cn(...))] changes
    nothing, as a string argument and as an array argument. *)
Theorem cn_idempotent :
  forall classes : list ClassValue,
    cn [Item (ItemString (cn classes))] = cn classes /\
    cn [Array [ItemString (cn classes)]] = cn classes.
Proof.
  intros classes.
  assert (Hs : cn [Item (ItemString (cn classes))] = cn classes).
  { unfold cn at 1; rewrite joinClasses_words.
    cbn [flat_map pushed]; rewrite app_nil_r, words_pushedItem_string.
    unfold cn; rewrite words_joinClasses.
    symmetry; apply joinClasses_words. }
  split; [exact Hs|].
  unfold cn at 1; rewrite joinClasses_words.
  cbn [flat_map]; rewrite app_nil_r, words_pushed_Array.
  cbn [flat_map]; rewrite app_nil_r, words_pushedItem_string.
  unfold cn; rewrite words_joinClasses.
  symmetry; apply joinClasses_words.
Qed.

Lemma flat_map_pushed_items (items : list ClassItem) :
  flat_map pushed (map Item items) = flat_map pushedItem items.
Proof.
  induction items as [|i items IH]; [reflexivity|].
  cbn [map flat_map pushed]; now rewrite IH.
Qed.

(** X20.  An array argument counts as its elements given one by one:
    [cn(a, [b, c], d)] is [cn(a, b, c, d)]. *)
Theorem cn_flattens_arrays :
  forall (before after : list ClassValue) (items : list ClassItem),
    cn (before ++ Array items :: after)
    = cn (before ++ map Item items ++ after).
Proof.
  intros before after items; unfold cn.
  rewrite !joinClasses_words, !flat_map_app.
  cbn [flat_map]; rewrite !flat_map_app, words_pushed_Array.
  now rewrite flat_map_pushed_items.
Qed.

(** X21.  An object argument counts as [value && key] for each of its
    entries, in the order of the entries. *)
Theorem cn_object_as_conditions :
  forall (before after : list ClassValue) (entries : list (string * bool)),
    cn (before ++ Dictionary entries :: after)
    = cn (before
          ++ map (fun entry : string * bool =>
                    Item (if snd entry then ItemString (fst entry)
                          else ItemFalse)) entries
          ++ after).
Proof.
  intros before after entries; unfold cn.
  rewrite !joinClasses_words, !flat_map_app.
  cbn [flat_map]; rewrite !flat_map_app.
  do 3 f_equal; unfold pushed at 1.
  induction entries as [|[key value] entries IH]; [reflexivity|].
  cbn [map flat_map filter snd fst].
  destruct value.
  - cbn [map flat_map fst]; rewrite flat_map_app, IH.
    change (pushed (Item (ItemString key)))
      with (pushedItem (ItemString key)).
    now rewrite words_pushedItem_string.
  - cbn [pushed pushedItem app flat_map]; exact IH.
Qed.

(** ** The callers on the sample data *)

Example cn_strings :
  cn [Item (ItemString "px-4 py-2"); Item (ItemString "text-white")]
  = "px-4 py-2 text-white".
Proof. reflexivity. Qed.

Example cn_condition_false :
  cn [Item (ItemString "px-4 py-2"); Item ItemFalse] = "px-4 py-2".
Proof. reflexivity. Qed.

Example cn_object :
  cn [Item (ItemString "px-4 py-2");
      Dictionary [("bg-blue-500", true); ("bg-gray-100", false)]]
  = "px-4 py-2 bg-blue-500".
Proof. reflexivity. Qed.

Example cn_array :
  cn [Item (ItemString "px-4 py-2");
      Array [ItemString "bg-blue-500"; ItemString "text-white"]]
  = "px-4 py-2 bg-blue-500 text-white".
Proof. reflexivity. Qed.

Example cn_white_space :
  cn [Item (ItemString "  a   b "); Item (ItemString "");
      Item (ItemString (String (ascii_of_nat 10) "c"));
      Array []; Item ItemNull]
  = "a b c".
Proof. reflexivity. Qed.

Example unique_sources_of_mock :
  getUniqueSources (mockLeads ++ [sarah; ann])
  = ["email"; "landing_page"; "manual"; "sms"; "web_form"].
Proof. reflexivity. Qed.

Example unique_tags_of_mock :
  getUniqueTags [sarah; michael; emily]
  = ["enterprise"; "high-priority"; "hot-lead"; "marketing"; "smb";
     "urgent"].
Proof. reflexivity. Qed.

Example showing_21_to_25 :
  startItem 3 ITEMS_PER_PAGE = 21 /\
  endItem 3 ITEMS_PER_PAGE (totalLeads (numbered 25) initialState) = 25 /\
  canGoPrev 3 = true /\
  canGoNext 3 (totalPages (numbered 25) initialState) = false.
Proof. repeat split. Qed.

Example next_next_next_stops :
  currentPage
    (run (numbered 25) [NextButton; NextButton; NextButton; NextButton])
  = 3 /\
  currentPage
    (run (numbered 25) [NextButton; NextButton; SearchInput "lead"]) = 1 /\
  currentPage (run (numbered 25) [PreviousButton]) = 1 /\
  currentPage (run [] [NextButton]) = 1.
Proof. repeat split. Qed.

(** ** Sorting and the listing *)

(** X22.  The sort controls and the view toggle change neither which leads
    are listed nor how many pages there are nor the page: after choosing a
    sort field, pressing the direction button or switching the view,
    [filteredLeads], [totalPages] and [currentPage] are what they were, and
    [sortedLeads] holds the same leads, possibly in another order. *)
Theorem sort_controls_keep_the_listing :
  forall (leads : list Lead.t) (st : State) (e : Event),
    e = DirectionButton \/ (exists f, e = SortSelect f) \/
    (exists mode, e = ViewButton mode) ->
    filteredLeads leads (handle leads st e) = filteredLeads leads st /\
    Permutation (sortedLeads leads (handle leads st e))
      (sortedLeads leads st) /\
    totalPages leads (handle leads st e) = totalPages leads st /\
    currentPage (handle leads st e) = currentPage st.
Proof.
  intros leads st e He.
  assert (Hf : filteredLeads leads (handle leads st e)
               = filteredLeads leads st /\
               currentPage (handle leads st e) = currentPage st).
  { destruct He as [->|[[f ->]|[mode ->]]]; cbn [handle].
    - split; reflexivity.
    - unfold setSortField, handleSetSortField.
      destruct (SortField_eqb (sortField st) f); split; reflexivity.
    - split; reflexivity. }
  destruct Hf as [Hf Hp].
  split; [exact Hf|]; split; [|split; [|exact Hp]].
  - unfold sortedLeads; rewrite !sort_perm, Hf; reflexivity.
  - now apply totalPages_filtered.
Qed.

Lemma sort_controls_keep_the_listing_witness :
  (exists f, SortSelect name = SortSelect f) /\
  filteredLeads mockLeads
    (handle mockLeads (toggleTag "enterprise" initialState)
       (SortSelect name))
  = [sarah; emily] /\
  currentPage (handle mockLeads (onPage 2) DirectionButton) = 2.
Proof.
  assert (Hsel : exists f, SortSelect name = SortSelect f)
    by (exists name; reflexivity).
  destruct (sort_controls_keep_the_listing mockLeads
              (toggleTag "enterprise" initialState) (SortSelect name)
              (or_intror (or_introl Hsel))) as (Hf & _).
  destruct (sort_controls_keep_the_listing mockLeads (onPage 2)
              DirectionButton (or_introl eq_refl)) as (_ & _ & _ & Hp).
  split; [exact Hsel|]; split; [rewrite Hf; reflexivity | exact Hp].
Defined.
